(** * L1MuonRecoPropagator: extrapolation of muon tracks to the muon stations

    A shallow embedding of [src/L1MuonRecoPropagator.cc] (CMGTools/WTau3Mu).

    The producer walks the PAT muons of an event and extrapolates the inner
    track of each one to the two ME2 planes and to the MB2 cylinder, trying
    the "along" propagator first and the "opposite" one when that fails.

    The class is a stateful C++ object: its handles and the [tsos] member are
    fields that [produce] overwrites.  The embedding threads the object
    through a small state monad, and records the calls made to the external
    collaborators (the propagators, the position accessor of a trajectory
    state) in a trace, so that the order of the calls can be stated. *)

From Stdlib Require Import List String Bool ZArith Lia Floats.
Import ListNotations.

Set Implicit Arguments.

(** ** Numbers

    The source computes in C++ [double]; the embedding uses the binary64
    primitive floats, whose operations are the IEEE 754 ones.  Every
    coordinate is kept as a [double].  The primitive floats have one NaN:
    the sign and the payload of a NaN are not modelled. *)

Definition double : Type := float.
Bind Scope float_scope with double.

(** ** Geometry and tracking data

    The headers of these types are not part of the repository; the records
    keep what the source reads and writes. *)

Record Point3 : Type := mkPoint3 { x : double; y : double; z : double }.

Definition GlobalPoint : Type := Point3.
Definition GlobalVector : Type := Point3.
Definition PositionType : Type := Point3.

(** [Plane::RotationType rot;] and [Cylinder::RotationType rot;] are default
    constructed: the identity rotation. *)
Record RotationType : Type := mkRotation {
  rot_x : Point3; rot_y : Point3; rot_z : Point3
}.

Definition rot_default : RotationType :=
  {| rot_x := mkPoint3 1 0 0; rot_y := mkPoint3 0 1 0; rot_z := mkPoint3 0 0 1 |}.

Record Plane : Type := mkPlane {
  plane_position : PositionType;
  plane_rotation : RotationType
}.

Record Cylinder : Type := mkCylinder {
  cyl_position : PositionType;
  cyl_rotation : RotationType;
  cyl_radius : double
}.

Inductive Surface : Type :=
| SurfPlane (p : Plane)
| SurfCylinder (c : Cylinder).

(** [Plane::build(pos, rot)] and [Cylinder::build(pos, rot, rho)]. *)
Definition Plane_build (pos : PositionType) (rot : RotationType) : Plane :=
  mkPlane pos rot.

Definition Cylinder_build (pos : PositionType) (rot : RotationType) (rho : double) : Cylinder :=
  mkCylinder pos rot rho.

(** Modelled from the spec: the magnetic field provider, "given a 3D
    position, returns the local field vector". *)
Definition MagneticField : Type := GlobalPoint -> GlobalVector.

(** [reco::Track], read through [innerPosition], [innerMomentum], [charge]. *)
Record Track : Type := mkTrack {
  innerPosition : Point3;
  innerMomentum : Point3;
  charge : Z
}.

Definition TrackRef : Type := Track.

(** [pat::Muon], read through [innerTrack]. *)
Record Muon : Type := mkMuon { innerTrack : TrackRef }.

Definition MuonCollection : Type := list Muon.

(** [FreeTrajectoryState(innerPoint, innerVec, charge, field)]. *)
Record FreeTrajectoryState : Type := mkFTS {
  fts_position : GlobalPoint;
  fts_momentum : GlobalVector;
  fts_charge : Z;
  fts_field : MagneticField
}.

(** Modelled from the spec: a trajectory state on surface carries a validity
    flag and a global position; what the position holds when the flag is
    false is not specified, so the record keeps a value there too.  A default
    constructed state is not valid. *)
Record TrajectoryStateOnSurface : Type := mkTSOS {
  isValid : bool;
  globalPosition : GlobalPoint
}.

Definition tsos_default : TrajectoryStateOnSurface :=
  {| isValid := false; globalPosition := mkPoint3 0 0 0 |}.

(** Modelled from the spec: a propagator "given a starting state and a
    target surface, computes the state at that surface, or reports
    failure" through the validity flag. *)
Record Propagator : Type := mkPropagator {
  propagate : FreeTrajectoryState -> Surface -> TrajectoryStateOnSurface
}.

(** ** The event and the event setup

    [iEvent.getByLabel(label, handle)] and
    [iSetup.get<Record>().get(label, handle)] fill a handle of the object. *)

Record Event : Type := mkEvent {
  getByLabel : string -> MuonCollection
}.

Record EventSetup : Type := mkEventSetup {
  idealMagneticFieldRecord : MagneticField;
  trackingComponentsRecord : string -> Propagator
}.

(** ** The producer object *)

Record L1MuonRecoPropagator : Type := mkSelf {
  theBField : MagneticField;
  mucand : MuonCollection;
  propagatorAlong : Propagator;
  propagatorOpposite : Propagator;
  tsos : TrajectoryStateOnSurface
}.

(** ** Trace of the calls to the collaborators *)

Inductive Handle : Type := Along | Opposite.

Inductive Call : Type :=
| CallSurfExtrap (track : TrackRef) (z : double)
| CallCylExtrap (track : TrackRef) (rho : double)
| CallPropagate (h : Handle) (start : FreeTrajectoryState) (target : Surface)
| CallGlobalPosition (t : TrajectoryStateOnSurface).

Definition Trace : Type := list Call.

(** ** State and trace monad *)

Definition M (A : Type) : Type :=
  L1MuonRecoPropagator -> A * L1MuonRecoPropagator * Trace.

Definition ret {A} (a : A) : M A := fun self => (a, self, []).

Definition bind {A B} (m : M A) (k : A -> M B) : M B :=
  fun self =>
    let '(a, self1, t1) := m self in
    let '(b, self2, t2) := k a self1 in
    (b, self2, t1 ++ t2).

Definition this : M L1MuonRecoPropagator := fun self => (self, self, []).

Definition assign (f : L1MuonRecoPropagator -> L1MuonRecoPropagator) : M unit :=
  fun self => (tt, f self, []).

Definition call (c : Call) : M unit := fun self => (tt, self, [c]).

Declare Scope monad_scope.
Delimit Scope monad_scope with monad.
Notation "x <- m ;; k" := (bind m (fun x => k))
  (at level 61, m at next level, right associativity) : monad_scope.
Notation "m ;; k" := (bind m (fun _ => k))
  (at level 61, right associativity) : monad_scope.
Open Scope monad_scope.

Definition value {A} (r : A * L1MuonRecoPropagator * Trace) : A := fst (fst r).
Definition after {A} (r : A * L1MuonRecoPropagator * Trace) : L1MuonRecoPropagator :=
  snd (fst r).
Definition trace {A} (r : A * L1MuonRecoPropagator * Trace) : Trace := snd r.

(** The [for] loop over a collection, collecting what each iteration
    yields. *)
Fixpoint for_each {A B} (l : list A) (body : A -> M B) : M (list B) :=
  match l with
  | [] => ret []
  | a :: l' => b <- body a ;; bs <- for_each l' body ;; ret (b :: bs)
  end.

(** ** Member assignments *)

Definition set_mucand (c : MuonCollection) : M unit :=
  assign (fun s => mkSelf (theBField s) c (propagatorAlong s) (propagatorOpposite s) (tsos s)).

Definition set_theBField (b : MagneticField) : M unit :=
  assign (fun s => mkSelf b (mucand s) (propagatorAlong s) (propagatorOpposite s) (tsos s)).

Definition set_propagatorAlong (p : Propagator) : M unit :=
  assign (fun s => mkSelf (theBField s) (mucand s) p (propagatorOpposite s) (tsos s)).

Definition set_propagatorOpposite (p : Propagator) : M unit :=
  assign (fun s => mkSelf (theBField s) (mucand s) (propagatorAlong s) p (tsos s)).

Definition set_tsos (t : TrajectoryStateOnSurface) : M unit :=
  assign (fun s => mkSelf (theBField s) (mucand s) (propagatorAlong s) (propagatorOpposite s) t).

(** ** Calls to the collaborators *)

(** [propagatorAlong->propagate(start, surface)] and
    [propagatorOpposite->propagate(start, surface)]. *)
Definition handle (h : Handle) (self : L1MuonRecoPropagator) : Propagator :=
  match h with
  | Along => propagatorAlong self
  | Opposite => propagatorOpposite self
  end.

Definition propagate_with (h : Handle) (start : FreeTrajectoryState) (target : Surface)
  : M TrajectoryStateOnSurface :=
  self <- this ;;
  call (CallPropagate h start target) ;;
  ret (propagate (handle h self) start target).

(** [t.globalPosition()]. *)
Definition read_globalPosition (t : TrajectoryStateOnSurface) : M GlobalPoint :=
  call (CallGlobalPosition t) ;;
  ret (globalPosition t).

(** ** freeTrajStateMuon (source lines 163-173) *)

Definition freeTrajStateMuon (track : TrackRef) : M FreeTrajectoryState :=
  self <- this ;;
  let innerPoint : GlobalPoint :=
    mkPoint3 (x (innerPosition track)) (y (innerPosition track)) (z (innerPosition track)) in
  let innerVec : GlobalVector :=
    mkPoint3 (x (innerMomentum track)) (y (innerMomentum track)) (z (innerMomentum track)) in
  let recoStart := mkFTS innerPoint innerVec (charge track) (theBField self) in
  ret recoStart.

(** ** surfExtrapTrkSam (source lines 175-189) *)

Definition surfExtrapTrkSam (track : TrackRef) (z : double) : M TrajectoryStateOnSurface :=
  call (CallSurfExtrap track z) ;;
  let pos : PositionType := mkPoint3 0 0 z in
  let rot : RotationType := rot_default in
  let myPlane := Plane_build pos rot in
  recoStart <- freeTrajStateMuon track ;;
  recoProp <- propagate_with Along recoStart (SurfPlane myPlane) ;;
  if negb (isValid recoProp)
  then propagate_with Opposite recoStart (SurfPlane myPlane)
  else ret recoProp.

(** ** cylExtrapTrkSam (source lines 191-205) *)

Definition cylExtrapTrkSam (track : TrackRef) (rho : double) : M TrajectoryStateOnSurface :=
  call (CallCylExtrap track rho) ;;
  let pos : PositionType := mkPoint3 0 0 0 in
  let rot : RotationType := rot_default in
  let myCylinder := Cylinder_build pos rot rho in
  recoStart <- freeTrajStateMuon track ;;
  recoProp <- propagate_with Along recoStart (SurfCylinder myCylinder) ;;
  if negb (isValid recoProp)
  then propagate_with Opposite recoStart (SurfCylinder myCylinder)
  else ret recoProp.

(** ** produce (source lines 88-161)

    [produce] returns nothing and stores nothing: the lines that would push
    the derived numbers (and the sentinel) into [muonData] are commented
    out.  What each branch computes lives in local variables only.  The
    embedding returns, per muon and per target, the locals of the branch
    taken: [Some] of the locals when the state is valid, [None] for the
    empty [else] branch. *)

Record PlaneLocals : Type := mkPlaneLocals {
  xx : double; yy : double; rr : double; cosphi : double
}.

Record CylinderLocals : Type := mkCylinderLocals {
  cyl_xx : double; cyl_yy : double; cyl_zz : double;
  cyl_rr : double; cyl_cosphi : double
}.

(** Source lines 108-122 and 125-139. *)
Definition me2_block : M (option PlaneLocals) :=
  self <- this ;;
  if isValid (tsos self) then
    px <- read_globalPosition (tsos self) ;;
    let xx := x px in
    py <- read_globalPosition (tsos self) ;;
    let yy := y py in
    let rr := sqrt (xx * xx + yy * yy)%float in
    let cosphi := (xx / rr)%float in
    ret (Some (mkPlaneLocals xx yy rr cosphi))
  else
    ret None.

(** Source lines 142-157. *)
Definition mb2_block : M (option CylinderLocals) :=
  self <- this ;;
  if isValid (tsos self) then
    px <- read_globalPosition (tsos self) ;;
    let xx := x px in
    py <- read_globalPosition (tsos self) ;;
    let yy := y py in
    pz <- read_globalPosition (tsos self) ;;
    let zz := z pz in
    let rr := sqrt (xx * xx + yy * yy)%float in
    let cosphi := (xx / rr)%float in
    ret (Some (mkCylinderLocals xx yy zz rr cosphi))
  else
    ret None.

Record MuonLocals : Type := mkMuonLocals {
  me2_p : option PlaneLocals;
  me2_n : option PlaneLocals;
  mb2 : option CylinderLocals
}.

(** The body of the loop, source lines 103-158. *)
Definition produce_body (imu : Muon) : M MuonLocals :=
  let tr_mu := innerTrack imu in
  t <- surfExtrapTrkSam tr_mu 790%float ;; set_tsos t ;;
  p <- me2_block ;;
  t <- surfExtrapTrkSam tr_mu (-790)%float ;; set_tsos t ;;
  n <- me2_block ;;
  t <- cylExtrapTrkSam tr_mu 500%float ;; set_tsos t ;;
  b <- mb2_block ;;
  ret (mkMuonLocals p n b).

Definition produce (iEvent : Event) (iSetup : EventSetup) : M (list MuonLocals) :=
  set_mucand (getByLabel iEvent "slimmedMuons") ;;
  set_theBField (idealMagneticFieldRecord iSetup) ;;
  set_propagatorAlong (trackingComponentsRecord iSetup "SmartPropagatorAny") ;;
  set_propagatorOpposite (trackingComponentsRecord iSetup "SmartPropagatorAnyOpposite") ;;
  self <- this ;;
  for_each (mucand self) produce_body.

(** ** Vocabulary of the statements

    Plain functions of the handles, the track and the target, against which
    the monadic code is compared. *)

(** The object with its [tsos] member replaced. *)
Definition with_tsos (self : L1MuonRecoPropagator) (t : TrajectoryStateOnSurface)
  : L1MuonRecoPropagator :=
  mkSelf (theBField self) (mucand self) (propagatorAlong self) (propagatorOpposite self) t.

(** Two objects that hold the same field and the same propagators; the
    [mucand] and [tsos] members are free. *)
Definition same_handles (s1 s2 : L1MuonRecoPropagator) : Prop :=
  theBField s1 = theBField s2
  /\ propagatorAlong s1 = propagatorAlong s2
  /\ propagatorOpposite s1 = propagatorOpposite s2.

(** The free state that [freeTrajStateMuon] builds for a track. *)
Definition start_of (self : L1MuonRecoPropagator) (track : TrackRef) : FreeTrajectoryState :=
  mkFTS (mkPoint3 (x (innerPosition track)) (y (innerPosition track)) (z (innerPosition track)))
        (mkPoint3 (x (innerMomentum track)) (y (innerMomentum track)) (z (innerMomentum track)))
        (charge track) (theBField self).

(** The three targets of the driver. *)
Definition planeAt (z : double) : Surface :=
  SurfPlane (mkPlane (mkPoint3 0 0 z) rot_default).

Definition cylinderAt (rho : double) : Surface :=
  SurfCylinder (mkCylinder (mkPoint3 0 0 0) rot_default rho).

(** A direct propagation with one of the two handles. *)
Definition direct (h : Handle) (self : L1MuonRecoPropagator) (track : TrackRef)
  (target : Surface) : TrajectoryStateOnSurface :=
  propagate (handle h self) (start_of self track) target.

(** "Along" first, "opposite" as the fallback. *)
Definition extrapolate (self : L1MuonRecoPropagator) (track : TrackRef) (target : Surface)
  : TrajectoryStateOnSurface :=
  if isValid (direct Along self track target)
  then direct Along self track target
  else direct Opposite self track target.

Definition propagate_calls (self : L1MuonRecoPropagator) (track : TrackRef) (target : Surface)
  : Trace :=
  CallPropagate Along (start_of self track) target ::
  (if isValid (direct Along self track target) then []
   else [CallPropagate Opposite (start_of self track) target]).

(** The locals of a branch, as a function of the state that was tested. *)
Definition plane_locals (t : TrajectoryStateOnSurface) : option PlaneLocals :=
  if isValid t then
    let xx := x (globalPosition t) in
    let yy := y (globalPosition t) in
    let rr := sqrt (xx * xx + yy * yy)%float in
    Some (mkPlaneLocals xx yy rr (xx / rr)%float)
  else None.

Definition cylinder_locals (t : TrajectoryStateOnSurface) : option CylinderLocals :=
  if isValid t then
    let xx := x (globalPosition t) in
    let yy := y (globalPosition t) in
    let rr := sqrt (xx * xx + yy * yy)%float in
    Some (mkCylinderLocals xx yy (z (globalPosition t)) rr (xx / rr)%float)
  else None.

Definition position_reads (n : nat) (t : TrajectoryStateOnSurface) : Trace :=
  if isValid t then repeat (CallGlobalPosition t) n else [].

(** What one iteration of the loop computes and calls, for an object [self]
    and a muon. *)
Definition muon_locals (self : L1MuonRecoPropagator) (imu : Muon) : MuonLocals :=
  let tr_mu := innerTrack imu in
  mkMuonLocals (plane_locals (extrapolate self tr_mu (planeAt 790)))
               (plane_locals (extrapolate self tr_mu (planeAt (-790))))
               (cylinder_locals (extrapolate self tr_mu (cylinderAt 500))).

Definition muon_calls (self : L1MuonRecoPropagator) (imu : Muon) : Trace :=
  let tr_mu := innerTrack imu in
  (CallSurfExtrap tr_mu 790 :: propagate_calls self tr_mu (planeAt 790))
  ++ position_reads 2 (extrapolate self tr_mu (planeAt 790))
  ++ (CallSurfExtrap tr_mu (-790) :: propagate_calls self tr_mu (planeAt (-790)))
  ++ position_reads 2 (extrapolate self tr_mu (planeAt (-790)))
  ++ (CallCylExtrap tr_mu 500 :: propagate_calls self tr_mu (cylinderAt 500))
  ++ position_reads 3 (extrapolate self tr_mu (cylinderAt 500)).

(** Projections of a trace. *)
Definition is_extrapolation (c : Call) : bool :=
  match c with
  | CallSurfExtrap _ _ | CallCylExtrap _ _ => true
  | _ => false
  end.

Definition is_along (c : Call) : bool :=
  match c with
  | CallPropagate Along _ _ => true
  | _ => false
  end.

(** A position read is guarded when the state it reads is valid. *)
Definition guarded (c : Call) : Prop :=
  match c with
  | CallGlobalPosition t => isValid t = true
  | _ => True
  end.

(** The three extrapolations of one track, in the order of the source. *)
Definition three_extrapolations (imu : Muon) : Trace :=
  [ CallSurfExtrap (innerTrack imu) 790;
    CallSurfExtrap (innerTrack imu) (-790);
    CallCylExtrap (innerTrack imu) 500 ].

Definition three_targets (self : L1MuonRecoPropagator) (imu : Muon) : Trace :=
  [ CallPropagate Along (start_of self (innerTrack imu)) (planeAt 790);
    CallPropagate Along (start_of self (innerTrack imu)) (planeAt (-790));
    CallPropagate Along (start_of self (innerTrack imu)) (cylinderAt 500) ].

(** The object once [produce] has fetched the collection and the handles. *)
Definition fetched (iEvent : Event) (iSetup : EventSetup) (self : L1MuonRecoPropagator)
  : L1MuonRecoPropagator :=
  mkSelf (idealMagneticFieldRecord iSetup)
         (getByLabel iEvent "slimmedMuons")
         (trackingComponentsRecord iSetup "SmartPropagatorAny")
         (trackingComponentsRecord iSetup "SmartPropagatorAnyOpposite")
         (tsos self).

(** The number in the commented-out [push_back(-999999)] of the [else]
    branches. *)
Definition sentinel : double := (-999999)%float.

(** *** Counting and reading a trace *)

Definition is_opposite (c : Call) : bool :=
  match c with
  | CallPropagate Opposite _ _ => true
  | _ => false
  end.

Definition is_read (c : Call) : bool :=
  match c with
  | CallGlobalPosition _ => true
  | _ => false
  end.

(** The three surfaces of the driver, in the order of the source. *)
Definition targets : list Surface :=
  [planeAt 790; planeAt (-790); cylinderAt 500].

(** For one muon: how many of the three "along" propagations fail, and how
    many position reads the valid results cost (two for a plane, three for
    the cylinder). *)
Definition failed_along (self : L1MuonRecoPropagator) (imu : Muon) : nat :=
  List.length
    (filter (fun target => negb (isValid (direct Along self (innerTrack imu) target))) targets).

Definition reads_of (self : L1MuonRecoPropagator) (imu : Muon) : nat :=
  (if isValid (extrapolate self (innerTrack imu) (planeAt 790)) then 2 else 0)
  + (if isValid (extrapolate self (innerTrack imu) (planeAt (-790))) then 2 else 0)
  + (if isValid (extrapolate self (innerTrack imu) (cylinderAt 500)) then 3 else 0).

(** A trace reads fresh states only: every position read is on the state
    that the latest propagator call returned, and that call was made after
    the latest entry into an extrapolation.  [latest] is the state returned
    by the latest propagator call since the latest entry, if any; the
    propagators are those of [self]. *)
Fixpoint reads_latest (self : L1MuonRecoPropagator)
  (latest : option TrajectoryStateOnSurface) (calls : Trace) : Prop :=
  match calls with
  | [] => True
  | CallSurfExtrap _ _ :: calls' => reads_latest self None calls'
  | CallCylExtrap _ _ :: calls' => reads_latest self None calls'
  | CallPropagate h start target :: calls' =>
      reads_latest self (Some (propagate (handle h self) start target)) calls'
  | CallGlobalPosition t :: calls' =>
      latest = Some t /\ reads_latest self latest calls'
  end.

(** The state a trace leaves as the latest one. *)
Fixpoint latest_after (self : L1MuonRecoPropagator)
  (latest : option TrajectoryStateOnSurface) (calls : Trace)
  : option TrajectoryStateOnSurface :=
  match calls with
  | [] => latest
  | CallSurfExtrap _ _ :: calls' => latest_after self None calls'
  | CallCylExtrap _ _ :: calls' => latest_after self None calls'
  | CallPropagate h start target :: calls' =>
      latest_after self (Some (propagate (handle h self) start target)) calls'
  | CallGlobalPosition _ :: calls' => latest_after self latest calls'
  end.

(** A propagator call of the driver is about a muon of the collection and
    one of the three surfaces. *)
Definition about_collection (self : L1MuonRecoPropagator) (muons : MuonCollection)
  (c : Call) : Prop :=
  match c with
  | CallPropagate _ start target =>
      (exists imu, In imu muons /\ start = start_of self (innerTrack imu))
      /\ In target targets
  | _ => True
  end.

(** The member [tsos] that the loop leaves behind: the cylinder
    extrapolation of the last muon, or the incoming state when there is no
    muon. *)
Definition last_tsos (self : L1MuonRecoPropagator) (muons : MuonCollection)
  : TrajectoryStateOnSurface :=
  last (map (fun imu => extrapolate self (innerTrack imu) (cylinderAt 500)) muons) (tsos self).

(** A position with [x], respectively [y], of the other sign. *)
Definition flip_x (p : Point3) : Point3 := mkPoint3 (- x p) (y p) (z p).
Definition flip_y (p : Point3) : Point3 := mkPoint3 (x p) (- y p) (z p).
Definition swap_xy (p : Point3) : Point3 := mkPoint3 (y p) (x p) (z p).

(** ** Concrete inputs

    A uniform field along the beam axis, and two toy propagators that move a
    state in a straight line to a plane: the "along" one reaches the planes
    on the side the momentum points to, the "opposite" one those on the other
    side; neither reaches a cylinder. *)

Module Fixture.

Definition uniform_field : MagneticField :=
  fun _ => mkPoint3 0 0 0x1.e666666666666p+1.

Definition to_plane (start : FreeTrajectoryState) (p : Plane) : TrajectoryStateOnSurface :=
  let dz := (z (plane_position p) - z (fts_position start))%float in
  let pz := z (fts_momentum start) in
  mkTSOS true
    (mkPoint3 (x (fts_position start) + x (fts_momentum start) * (dz / pz))
              (y (fts_position start) + y (fts_momentum start) * (dz / pz))
              (z (plane_position p))).

Definition straight_along : Propagator :=
  mkPropagator (fun start target =>
    match target with
    | SurfPlane p =>
        if (0 <? (z (plane_position p) - z (fts_position start)) * z (fts_momentum start))%float
        then to_plane start p else tsos_default
    | SurfCylinder _ => tsos_default
    end).

Definition straight_opposite : Propagator :=
  mkPropagator (fun start target =>
    match target with
    | SurfPlane p =>
        if ((z (plane_position p) - z (fts_position start)) * z (fts_momentum start) <? 0)%float
        then to_plane start p else tsos_default
    | SurfCylinder _ => tsos_default
    end).

Definition setup : EventSetup :=
  mkEventSetup uniform_field
    (fun label => if String.eqb label "SmartPropagatorAny" then straight_along
                  else straight_opposite).

(** A track on the beam axis, and one beside it. *)
Definition on_axis : Muon :=
  mkMuon (mkTrack (mkPoint3 0 0 0) (mkPoint3 0 0 50) 1).

Definition off_axis : Muon :=
  mkMuon (mkTrack (mkPoint3 3 4 0) (mkPoint3 0 0 50) (-1)).

Definition event (muons : MuonCollection) : Event :=
  mkEvent (fun label => if String.eqb label "slimmedMuons" then muons else []).

(** An object before its first event. *)
Definition fresh : L1MuonRecoPropagator :=
  mkSelf (fun _ => mkPoint3 0 0 0) [] (mkPropagator (fun _ _ => tsos_default))
         (mkPropagator (fun _ _ => tsos_default)) tsos_default.

(** The object of [setup], holding a given trajectory state. *)
Definition holding (t : TrajectoryStateOnSurface) : L1MuonRecoPropagator :=
  mkSelf uniform_field [] straight_along straight_opposite t.

End Fixture.

(** ** The entry points with their dereferences

    The embedding above takes the track reference and the handles as already
    resolved.  The source resolves them itself, with no test and no [try]:
    [track->innerPosition()], [&*theBField], [propagatorAlong->propagate],
    [propagatorOpposite->propagate]; and a propagator is foreign code that
    may throw.  This second embedding of [freeTrajStateMuon],
    [surfExtrapTrkSam] and [cylExtrapTrkSam] keeps those steps: a reference
    or a handle may hold nothing, a propagator may raise, and what is raised
    leaves the function.  It keeps the outcome and the object; the order of
    the calls is in the first embedding. *)

(** Modelled from the spec: the failures of section 7, "missing or
    malformed input track" and "missing field/propagator service data",
    and an exception thrown by a propagator. *)
Inductive Raise : Type :=
| NullReference
| InvalidHandle
| Thrown (what : string).

Inductive Outcome (A : Type) : Type :=
| Returned (a : A)
| Raised (e : Raise).

Arguments Returned {A} a.
Arguments Raised {A} e.

(** Modelled from the spec: a propagator that either returns a state,
    valid or not, or raises. *)
Record RaisingPropagator : Type := mkRaisingPropagator {
  propagate_or_raise : FreeTrajectoryState -> Surface -> Outcome TrajectoryStateOnSurface
}.

(** The producer object, each handle holding something or nothing. *)
Record Unresolved : Type := mkUnresolved {
  theBField_handle : option MagneticField;
  mucand_handle : option MuonCollection;
  propagatorAlong_handle : option RaisingPropagator;
  propagatorOpposite_handle : option RaisingPropagator;
  tsos_member : TrajectoryStateOnSurface
}.

Definition E (A : Type) : Type := Unresolved -> Outcome A * Unresolved.

Definition retE {A} (a : A) : E A := fun self => (Returned a, self).

Definition bindE {A B} (m : E A) (k : A -> E B) : E B :=
  fun self =>
    match m self with
    | (Returned a, self1) => k a self1
    | (Raised e, self1) => (Raised e, self1)
    end.

Definition thisE : E Unresolved := fun self => (Returned self, self).

(** [*h] and [h->]: the referent, or the exception of an empty [h]. *)
Definition deref {A} (e : Raise) (h : option A) : E A :=
  fun self => (match h with Some a => Returned a | None => Raised e end, self).



(** Source lines 163-173. *)
Definition freeTrajStateMuonE (track : option Track) : E FreeTrajectoryState :=
  bindE (deref NullReference track) (fun t =>
  let innerPoint : GlobalPoint :=
    mkPoint3 (x (innerPosition t)) (y (innerPosition t)) (z (innerPosition t)) in
  let innerVec : GlobalVector :=
    mkPoint3 (x (innerMomentum t)) (y (innerMomentum t)) (z (innerMomentum t)) in
  bindE thisE (fun self =>
  bindE (deref InvalidHandle (theBField_handle self)) (fun field =>
  let recoStart := mkFTS innerPoint innerVec (charge t) field in
  retE recoStart))).



(** An object of the first embedding seen in the second: every handle
    holds its referent and the propagators always return. *)
Definition returning (p : Propagator) : RaisingPropagator :=
  mkRaisingPropagator (fun start target => Returned (propagate p start target)).

Definition resolved (self : L1MuonRecoPropagator) : Unresolved :=
  mkUnresolved (Some (theBField self)) (Some (mucand self))
               (Some (returning (propagatorAlong self)))
               (Some (returning (propagatorOpposite self)))
               (tsos self).


(** * Binary64 facts used by the driver's arithmetic *)

Module SF.
Section Rounding.
Variables prec emax : Z.
Hypothesis prec_pos : (0 < prec)%Z.

Local Abbreviation emin := (SpecFloat.emin prec emax).
Local Abbreviation fexp := (SpecFloat.fexp prec emax).

(** A number that is not a NaN and carries the sign [s]. *)
Definition sign_is (s : bool) (f : spec_float) : Prop :=
  match f with
  | S754_zero s' | S754_infinity s' | S754_finite s' _ _ => s' = s
  | S754_nan => False
  end.

(** A number of sign [s] that is neither a NaN nor a zero. *)
Definition strictly (s : bool) (f : spec_float) : Prop :=
  match f with
  | S754_infinity s' | S754_finite s' _ _ => s' = s
  | S754_zero _ | S754_nan => False
  end.

Lemma digits2_pos_size (p : positive) : digits2_pos p = Pos.size p.
Proof. induction p; simpl; congruence. Qed.

Lemma Zdigits2_log2 (m : Z) : (0 < m)%Z -> Zdigits2 m = Z.succ (Z.log2 m).
Proof.
  destruct m as [|p|p]; try lia. intros _. simpl.
  rewrite digits2_pos_size. destruct p; simpl; lia.
Qed.

Lemma Zdigits2_bounds (m : Z) :
  (0 < m)%Z -> (2 ^ (Zdigits2 m - 1) <= m < 2 ^ Zdigits2 m)%Z.
Proof.
  intros Hm. rewrite (Zdigits2_log2 Hm).
  replace (Z.succ (Z.log2 m) - 1)%Z with (Z.log2 m) by lia.
  now apply Z.log2_spec.
Qed.

Lemma Zdigits2_pos (m : Z) : (0 < m)%Z -> (0 < Zdigits2 m)%Z.
Proof. intros Hm. rewrite (Zdigits2_log2 Hm). pose proof (Z.log2_nonneg m). lia. Qed.

Lemma Zdigits2_mono (m n : Z) :
  (0 < m <= n)%Z -> (Zdigits2 m <= Zdigits2 n)%Z.
Proof.
  intros H. rewrite !Zdigits2_log2 by lia.
  apply -> Z.succ_le_mono. apply Z.log2_le_mono. lia.
Qed.

Lemma shr_1_m (mrs : shr_record) :
  (0 <= shr_m mrs)%Z -> shr_m (shr_1 mrs) = (shr_m mrs / 2)%Z.
Proof.
  destruct mrs as [m r s]. simpl. intros Hm.
  destruct m as [|p|p]; try lia; [reflexivity|].
  destruct p as [p|p|]; simpl shr_m.
  - rewrite Pos2Z.inj_xI. apply Z.div_unique with 1%Z; lia.
  - rewrite Pos2Z.inj_xO. apply Z.div_unique with 0%Z; lia.
  - reflexivity.
Qed.

Lemma pow2_xI (p : positive) : (2 ^ Zpos p~1 = 2 * (2 ^ Zpos p * 2 ^ Zpos p))%Z.
Proof. rewrite Pos2Z.inj_xI, Z.pow_add_r, Z.pow_mul_r, Z.pow_2_r by lia. change (2 ^ 1)%Z with 2%Z.
  rewrite Z.pow_mul_l. lia. Qed.

Lemma pow2_xO (p : positive) : (2 ^ Zpos p~0 = 2 ^ Zpos p * 2 ^ Zpos p)%Z.
Proof. rewrite Pos2Z.inj_xO, <- Z.pow_add_r by lia. f_equal. lia. Qed.

Lemma iter_shr_1_m (p : positive) : forall mrs : shr_record,
  (0 <= shr_m mrs)%Z ->
  shr_m (iter_pos shr_1 p mrs) = (shr_m mrs / 2 ^ Zpos p)%Z.
Proof.
  induction p as [p IH|p IH|]; intros mrs Hm; cbn [iter_pos].
  - assert (H1 : (0 <= shr_m (shr_1 mrs))%Z)
      by (rewrite shr_1_m by auto; apply Z.div_pos; lia).
    assert (H2 : (0 <= shr_m (iter_pos shr_1 p (shr_1 mrs)))%Z)
      by (rewrite IH by auto; apply Z.div_pos; lia).
    rewrite (IH _ H2), (IH _ H1), shr_1_m by auto.
    rewrite !Z.div_div by lia. now rewrite pow2_xI, Z.mul_assoc.
  - assert (H2 : (0 <= shr_m (iter_pos shr_1 p mrs))%Z)
      by (rewrite IH by auto; apply Z.div_pos; lia).
    rewrite (IH _ H2), (IH _ Hm), Z.div_div by lia. now rewrite pow2_xO.
  - now rewrite shr_1_m.
Qed.

Lemma shr_record_of_loc_m (m : Z) (l : location) :
  shr_m (shr_record_of_loc m l) = m.
Proof. destruct l as [|[]]; reflexivity. Qed.

(** One rounding shift: the mantissa is divided by [2 ^ k] and the
    exponent raised by [k], for [k] the nonnegative part of the shift. *)
Lemma shr_fexp_m (m e : Z) (l : location) :
  (0 <= m)%Z ->
  let k := Z.max 0 (fexp (Zdigits2 m + e) - e) in
  shr_m (fst (shr_fexp prec emax m e l)) = (m / 2 ^ k)%Z
  /\ snd (shr_fexp prec emax m e l) = (e + k)%Z.
Proof.
  intros Hm k. unfold shr_fexp, shr. subst k.
  destruct (fexp (Zdigits2 m + e) - e)%Z as [|p|p] eqn:E; simpl fst; simpl snd.
  - rewrite shr_record_of_loc_m, Z.div_1_r. split; lia.
  - rewrite iter_shr_1_m by (rewrite shr_record_of_loc_m; auto).
    rewrite shr_record_of_loc_m. split; [f_equal; f_equal; lia | lia].
  - rewrite shr_record_of_loc_m. replace (Z.max 0 (Z.neg p)) with 0%Z by lia.
    rewrite Z.div_1_r. split; lia.
Qed.

Lemma round_nearest_even_ge (m : Z) (l : location) :
  (m <= round_nearest_even m l)%Z.
Proof. destruct l as [|[]]; simpl; try lia. destruct (Z.even m); lia. Qed.

(** Rounding keeps the sign it is given, whatever the mantissa. *)
Lemma binary_round_aux_sign (s : bool) (m e : Z) (l : location) :
  (0 <= m)%Z -> sign_is s (binary_round_aux prec emax s m e l).
Proof.
  intros Hm. unfold binary_round_aux.
  destruct (shr_fexp_m e l Hm) as [H1 _].
  destruct (shr_fexp prec emax m e l) as [mrs1 e1]. simpl in H1.
  set (m1 := round_nearest_even (shr_m mrs1) (loc_of_shr_record mrs1)).
  assert (Hm1 : (0 <= m1)%Z).
  { pose proof (round_nearest_even_ge (shr_m mrs1) (loc_of_shr_record mrs1)).
    assert (0 <= shr_m mrs1)%Z by (rewrite H1; apply Z.div_pos; lia). subst m1. lia. }
  destruct (shr_fexp_m e1 loc_Exact Hm1) as [H2 _].
  destruct (shr_fexp prec emax m1 e1 loc_Exact) as [mrs2 e2]. simpl in H2.
  assert (0 <= shr_m mrs2)%Z by (rewrite H2; apply Z.div_pos; lia).
  destruct (shr_m mrs2); try lia; simpl; auto.
  destruct (Z.leb _ _); simpl; auto.
Qed.

(** Rounding a positive mantissa whose magnitude lies above the smallest
    subnormal never gives a zero. *)
Lemma binary_round_aux_strict (s : bool) (m e : Z) (l : location) :
  (0 < m)%Z -> (emin < Zdigits2 m + e)%Z ->
  strictly s (binary_round_aux prec emax s m e l).
Proof.
  intros Hm Hmag. unfold binary_round_aux.
  assert (Hm0 : (0 <= m)%Z) by lia.
  destruct (shr_fexp_m e l Hm0) as [H1 E1].
  destruct (shr_fexp prec emax m e l) as [mrs1 e1]. simpl in H1, E1.
  set (k1 := Z.max 0 (fexp (Zdigits2 m + e) - e)) in *.
  pose proof (Zdigits2_bounds Hm) as [Hlo _].
  pose proof (Zdigits2_pos Hm) as Hd.
  assert (Hk1 : (0 <= k1 <= Zdigits2 m - 1)%Z)
    by (subst k1; unfold SpecFloat.fexp; lia).
  assert (Hq : (1 <= shr_m mrs1)%Z).
  { rewrite H1. apply Z.div_le_lower_bound; [lia|].
    rewrite Z.mul_1_r. apply Z.le_trans with (2 ^ (Zdigits2 m - 1))%Z; auto.
    apply Z.pow_le_mono_r; lia. }
  set (m1 := round_nearest_even (shr_m mrs1) (loc_of_shr_record mrs1)).
  assert (Hm1 : (shr_m mrs1 <= m1)%Z) by apply round_nearest_even_ge.
  assert (Hm1' : (0 <= m1)%Z) by lia.
  assert (Hm1'' : (0 < m1)%Z) by lia.
  destruct (shr_fexp_m e1 loc_Exact Hm1') as [H2 E2].
  destruct (shr_fexp prec emax m1 e1 loc_Exact) as [mrs2 e2]. simpl in H2, E2.
  set (k2 := Z.max 0 (fexp (Zdigits2 m1 + e1) - e1)) in *.
  pose proof (Zdigits2_bounds Hm1'') as [Hlo1 _].
  pose proof (Zdigits2_pos Hm1'') as Hd1.
  assert (Hmag1 : (emin < Zdigits2 m1 + e1)%Z).
  { destruct (Z.eq_dec k1 0) as [K|K].
    - assert (Zdigits2 m <= Zdigits2 m1)%Z.
      { apply Z.le_trans with (Zdigits2 (shr_m mrs1)).
        - rewrite H1, K, Z.div_1_r. lia.
        - apply Zdigits2_mono. lia. }
      lia.
    - assert (emin <= e1)%Z by (subst k1; unfold SpecFloat.fexp in *; lia). lia. }
  assert (Hk2 : (0 <= k2 <= Zdigits2 m1 - 1)%Z)
    by (subst k2; unfold SpecFloat.fexp; lia).
  assert (Hq2 : (1 <= shr_m mrs2)%Z).
  { rewrite H2. apply Z.div_le_lower_bound; [lia|].
    rewrite Z.mul_1_r. apply Z.le_trans with (2 ^ (Zdigits2 m1 - 1))%Z; auto.
    apply Z.pow_le_mono_r; lia. }
  destruct (shr_m mrs2); try lia; simpl.
  destruct (Z.leb _ _); simpl; auto.
Qed.
(** *** Signs of products, sums and square roots *)

Hypothesis emin_nonpos : (emin <= 0)%Z.

Lemma SFmul_self_sign (f : spec_float) :
  f <> S754_nan -> sign_is false (SFmul prec emax f f).
Proof.
  destruct f as [s|s| |s m e]; intros Hf; simpl; try congruence;
    try (now destruct s).
  replace (xorb s s) with false by (now destruct s).
  apply binary_round_aux_sign. lia.
Qed.

Lemma binary_round_sign (s : bool) (m : positive) (e : Z) :
  sign_is s (binary_round prec emax s m e).
Proof.
  unfold binary_round. destruct (shl_align _ _ _) as [mz ez].
  apply binary_round_aux_sign. lia.
Qed.

Lemma SFadd_sign (a b : spec_float) :
  sign_is false a -> sign_is false b -> sign_is false (SFadd prec emax a b).
Proof.
  destruct a as [sa|sa| |sa ma ea], b as [sb|sb| |sb mb eb]; simpl;
    intros Ha Hb; subst; simpl; auto.
  apply binary_round_sign.
Qed.

Lemma SFsqrt_core_binary_m (m : positive) (e : Z) :
  (emin <= e)%Z ->
  let '(q, e', _) := SFsqrt_core_binary prec emax (Zpos m) e in
  (0 < q)%Z /\ (emin <= e')%Z.
Proof.
  intros He. unfold SFsqrt_core_binary.
  set (e' := Z.min _ _).
  assert (He' : (emin <= e' /\ 2 * e' <= e)%Z).
  { subst e'. unfold SpecFloat.fexp. rewrite !Z.div2_div.
    pose proof (Z.div_mod e 2 ltac:(lia)). pose proof (Z.mod_pos_bound e 2 ltac:(lia)).
    lia. }
  set (m' := match (e - 2 * e')%Z with Z0 => Zpos m | Zpos _ => _ | Zneg _ => _ end).
  assert (Hm' : (0 < m')%Z).
  { subst m'. destruct (e - 2 * e')%Z as [|p|p] eqn:E; try lia.
    rewrite Z.shiftl_mul_pow2 by lia.
    apply Z.mul_pos_pos; [lia | apply Z.pow_pos_nonneg; lia]. }
  pose proof (Z.sqrtrem_spec m' ltac:(lia)) as Hs.
  destruct (Z.sqrtrem m') as [q r]. split; [nia | lia].
Qed.

Lemma SFsqrt_sign (a : spec_float) :
  sign_is false a -> sign_is false (SFsqrt prec emax a).
Proof.
  destruct a as [s|s| |s m e]; simpl; intros Ha; subst; simpl; auto.
  unfold SFsqrt_core_binary.
  set (m' := match _ with Z0 => Zpos m | Zpos _ => _ | Zneg _ => _ end).
  assert (Hm' : (0 <= m')%Z).
  { subst m'. destruct (_ - _)%Z; try lia. apply Z.shiftl_nonneg. lia. }
  pose proof (Z.sqrtrem_spec m' Hm') as Hs.
  destruct (Z.sqrtrem m') as [q r].
  apply binary_round_aux_sign. nia.
Qed.

Lemma bounded_emin (m : positive) (e : Z) :
  bounded prec emax m e = true -> (emin <= e)%Z.
Proof.
  unfold bounded, canonical_mantissa, SpecFloat.fexp.
  intros H. apply andb_true_iff in H as [H _]. apply Z.eqb_eq in H. lia.
Qed.

(** The square root of a positive number is positive: it does not
    underflow to zero. *)
Lemma SFsqrt_strict (m : positive) (e : Z) :
  bounded prec emax m e = true ->
  strictly false (SFsqrt prec emax (S754_finite false m e)).
Proof.
  intros Hb. simpl.
  pose proof (SFsqrt_core_binary_m m (bounded_emin _ _ Hb)) as H.
  destruct (SFsqrt_core_binary prec emax (Zpos m) e) as [[q e'] l].
  destruct H as [Hq He'].
  apply binary_round_aux_strict; auto.
  pose proof (Zdigits2_pos Hq). lia.
Qed.

Lemma SFleb_zero (a : spec_float) :
  sign_is false a -> SFleb (S754_zero false) a = true.
Proof. destruct a; simpl; intros; subst; auto; contradiction. Qed.

Lemma SFltb_zero_strict (a : spec_float) :
  strictly false a -> SFltb (S754_zero false) a = true.
Proof. destruct a; simpl; intros; subst; auto; contradiction. Qed.

Lemma SFltb_zero_sqrt (a : spec_float) :
  SpecFloat.valid_binary prec emax a = true ->
  SFltb (S754_zero false) (SFsqrt prec emax a) = SFltb (S754_zero false) a.
Proof.
  destruct a as [s|[|]| |[|] m e]; intros Hv; try reflexivity.
  rewrite SFltb_zero_strict by (apply SFsqrt_strict; exact Hv).
  reflexivity.
Qed.

End Rounding.
End SF.


(** ** Binary64 *)

Lemma binary64_prec_pos : (0 < prec)%Z.
Proof. reflexivity. Qed.

Lemma binary64_emin_nonpos : (SpecFloat.emin prec emax <= 0)%Z.
Proof. discriminate. Qed.

Lemma Prim2SF_zero : Prim2SF 0 = S754_zero false.
Proof. reflexivity. Qed.

Lemma Prim2SF_not_nan (f : float) : is_nan f = false -> Prim2SF f <> S754_nan.
Proof.
  intros H. unfold Prim2SF. rewrite H.
  destruct (is_zero f); [discriminate|].
  destruct (is_infinity f); [discriminate|].
  destruct (Z.frexp f) as [r e].
  destruct (shr_fexp _ _ _ _ _) as [mrs e'].
  destruct (shr_m mrs); discriminate.
Qed.

(** [sqrt (x*x + y*y)] is never below zero when neither operand is a NaN. *)
Lemma sqrt_sumsq_nonneg (x y : float) :
  is_nan x = false -> is_nan y = false ->
  (0 <=? sqrt (x * x + y * y))%float = true.
Proof.
  intros Hx Hy.
  rewrite leb_spec, sqrt_spec, add_spec, !mul_spec, Prim2SF_zero.
  apply SF.SFleb_zero, SF.SFsqrt_sign, SF.SFadd_sign;
    apply SF.SFmul_self_sign, Prim2SF_not_nan; auto using binary64_prec_pos.
Qed.

(** A square root is above zero exactly when its argument is. *)
Lemma sqrt_pos (a : float) : (0 <? sqrt a)%float = (0 <? a)%float.
Proof.
  rewrite !ltb_spec, sqrt_spec, Prim2SF_zero.
  apply SF.SFltb_zero_sqrt; auto using binary64_prec_pos, binary64_emin_nonpos, Prim2SF_valid.
Qed.

(** * The extrapolation engine *)

Lemma freeTrajStateMuon_run (track : TrackRef) (self : L1MuonRecoPropagator) :
  freeTrajStateMuon track self = (start_of self track, self, []).
Proof. reflexivity. Qed.

Lemma propagate_with_run (h : Handle) (start : FreeTrajectoryState) (target : Surface)
  (self : L1MuonRecoPropagator) :
  propagate_with h start target self
  = (propagate (handle h self) start target, self, [CallPropagate h start target]).
Proof. reflexivity. Qed.

Lemma surfExtrapTrkSam_run (track : TrackRef) (z : double) (self : L1MuonRecoPropagator) :
  surfExtrapTrkSam track z self
  = (extrapolate self track (planeAt z), self,
     CallSurfExtrap track z :: propagate_calls self track (planeAt z)).
Proof.
  unfold surfExtrapTrkSam, extrapolate, propagate_calls, direct, bind, call, planeAt.
  rewrite freeTrajStateMuon_run, propagate_with_run. cbn [handle Plane_build].
  destruct (isValid (propagate (propagatorAlong self) _ _)); reflexivity.
Qed.

Lemma cylExtrapTrkSam_run (track : TrackRef) (rho : double) (self : L1MuonRecoPropagator) :
  cylExtrapTrkSam track rho self
  = (extrapolate self track (cylinderAt rho), self,
     CallCylExtrap track rho :: propagate_calls self track (cylinderAt rho)).
Proof.
  unfold cylExtrapTrkSam, extrapolate, propagate_calls, direct, bind, call, cylinderAt.
  rewrite freeTrajStateMuon_run, propagate_with_run. cbn [handle Cylinder_build].
  destruct (isValid (propagate (propagatorAlong self) _ _)); reflexivity.
Qed.

Lemma extrapolate_valid (self : L1MuonRecoPropagator) (track : TrackRef) (target : Surface) :
  isValid (extrapolate self track target)
  = isValid (direct Along self track target) || isValid (direct Opposite self track target).
Proof.
  unfold extrapolate. destruct (isValid (direct Along self track target)) eqn:E; auto.
Qed.

Lemma extrapolate_same_handles (s1 s2 : L1MuonRecoPropagator) (track : TrackRef)
  (target : Surface) :
  same_handles s1 s2 -> extrapolate s1 track target = extrapolate s2 track target.
Proof.
  intros (Hb & Ha & Ho). unfold extrapolate, direct, start_of, handle.
  now rewrite Hb, Ha, Ho.
Qed.

(** C1.  Both entry points call the "along" propagator first, on the free
    state of the track and the surface they built; the "opposite"
    propagator is called exactly when the "along" result is not valid, after
    it, on the same state and surface; the state returned is the "along"
    result when that one is valid and the "opposite" result otherwise, so it
    is valid as soon as one of the two is. *)
Theorem along_first_opposite_fallback
  (self : L1MuonRecoPropagator) (track : TrackRef) (target : double) :
  let start := value (freeTrajStateMuon track self) in
  let engine (run : TrajectoryStateOnSurface * L1MuonRecoPropagator * Trace)
             (entry : Call) (surface : Surface) :=
    let along := propagate (propagatorAlong self) start surface in
    let opposite := propagate (propagatorOpposite self) start surface in
    trace run
    = entry :: CallPropagate Along start surface ::
        (if isValid along then [] else [CallPropagate Opposite start surface])
    /\ value run = (if isValid along then along else opposite)
    /\ isValid (value run) = isValid along || isValid opposite in
  engine (surfExtrapTrkSam track target self) (CallSurfExtrap track target) (planeAt target)
  /\ engine (cylExtrapTrkSam track target self) (CallCylExtrap track target) (cylinderAt target).
Proof.
  cbv zeta. rewrite surfExtrapTrkSam_run, cylExtrapTrkSam_run, freeTrajStateMuon_run.
  unfold value, trace; cbn [fst snd].
  repeat split; try reflexivity; apply extrapolate_valid.
Qed.

(** C6.  A second call of the plane extrapolation with the same track and
    the same [z], on the object the first call left behind, returns the same
    state and makes the same calls: the first call changes nothing in the
    object. *)
Theorem surfExtrapTrkSam_twice
  (self : L1MuonRecoPropagator) (track : TrackRef) (z : double) :
  let first := surfExtrapTrkSam track z self in
  let second := surfExtrapTrkSam track z (after first) in
  value second = value first /\ trace second = trace first /\ after first = self
  /\ value ((a <- surfExtrapTrkSam track z ;; b <- surfExtrapTrkSam track z ;; ret (a, b)) self)
     = (value first, value first).
Proof.
  cbv zeta. unfold bind. rewrite !surfExtrapTrkSam_run. cbn [after value trace fst snd].
  rewrite ?surfExtrapTrkSam_run. auto.
Qed.

(** * The per-event driver *)

Lemma me2_block_run (self : L1MuonRecoPropagator) :
  me2_block self = (plane_locals (tsos self), self, position_reads 2 (tsos self)).
Proof.
  unfold me2_block, plane_locals, position_reads, bind, this.
  destruct (isValid (tsos self)); reflexivity.
Qed.

Lemma mb2_block_run (self : L1MuonRecoPropagator) :
  mb2_block self = (cylinder_locals (tsos self), self, position_reads 3 (tsos self)).
Proof.
  unfold mb2_block, cylinder_locals, position_reads, bind, this.
  destruct (isValid (tsos self)); reflexivity.
Qed.

Lemma same_handles_refl (s : L1MuonRecoPropagator) : same_handles s s.
Proof. repeat split. Qed.

Lemma same_handles_trans (s1 s2 s3 : L1MuonRecoPropagator) :
  same_handles s1 s2 -> same_handles s2 s3 -> same_handles s1 s3.
Proof. unfold same_handles. intuition congruence. Qed.

Lemma same_handles_with_tsos (s : L1MuonRecoPropagator) (t : TrajectoryStateOnSurface) :
  same_handles s (with_tsos s t).
Proof. repeat split. Qed.

Lemma muon_locals_same_handles (s1 s2 : L1MuonRecoPropagator) (imu : Muon) :
  same_handles s1 s2 -> muon_locals s1 imu = muon_locals s2 imu.
Proof.
  intros H. unfold muon_locals.
  now rewrite !(extrapolate_same_handles _ _ H).
Qed.

Lemma muon_calls_same_handles (s1 s2 : L1MuonRecoPropagator) (imu : Muon) :
  same_handles s1 s2 -> muon_calls s1 imu = muon_calls s2 imu.
Proof.
  intros H. unfold muon_calls, propagate_calls, extrapolate, direct, start_of, handle.
  destruct H as (Hb & Ha & Ho). now rewrite Hb, Ha, Ho.
Qed.

Lemma set_tsos_run (t : TrajectoryStateOnSurface) (self : L1MuonRecoPropagator) :
  set_tsos t self = (tt, with_tsos self t, []).
Proof. reflexivity. Qed.

Lemma extrapolate_with_tsos (s : L1MuonRecoPropagator) (t : TrajectoryStateOnSurface) :
  extrapolate (with_tsos s t) = extrapolate s.
Proof. reflexivity. Qed.

Lemma propagate_calls_with_tsos (s : L1MuonRecoPropagator) (t : TrajectoryStateOnSurface) :
  propagate_calls (with_tsos s t) = propagate_calls s.
Proof. reflexivity. Qed.

Lemma with_tsos_twice (s : L1MuonRecoPropagator) (t t' : TrajectoryStateOnSurface) :
  with_tsos (with_tsos s t) t' = with_tsos s t'.
Proof. reflexivity. Qed.

Lemma tsos_with_tsos (s : L1MuonRecoPropagator) (t : TrajectoryStateOnSurface) :
  tsos (with_tsos s t) = t.
Proof. reflexivity. Qed.

(** One iteration of the loop: the member [tsos] is assigned before each of
    the three tests, so nothing of the incoming [tsos] survives. *)
Lemma produce_body_run (imu : Muon) (self : L1MuonRecoPropagator) :
  produce_body imu self
  = (muon_locals self imu,
     with_tsos self (extrapolate self (innerTrack imu) (cylinderAt 500)),
     muon_calls self imu).
Proof.
  unfold produce_body, bind, ret.
  rewrite surfExtrapTrkSam_run, set_tsos_run, me2_block_run, tsos_with_tsos.
  rewrite surfExtrapTrkSam_run, set_tsos_run, me2_block_run, tsos_with_tsos.
  rewrite cylExtrapTrkSam_run, set_tsos_run, mb2_block_run, tsos_with_tsos.
  rewrite !with_tsos_twice, !extrapolate_with_tsos, !propagate_calls_with_tsos.
  unfold muon_locals, muon_calls.
  rewrite !app_nil_r. reflexivity.
Qed.

Lemma for_each_produce_body (l : MuonCollection) : forall self : L1MuonRecoPropagator,
  value (for_each l produce_body self) = map (muon_locals self) l
  /\ trace (for_each l produce_body self) = flat_map (muon_calls self) l
  /\ same_handles self (after (for_each l produce_body self)).
Proof.
  induction l as [|imu l IH]; intros self.
  - repeat split.
  - cbn [for_each]. unfold bind. rewrite produce_body_run.
    set (self1 := with_tsos self _).
    destruct (IH self1) as (Hv & Ht & Hh).
    destruct (for_each l produce_body self1) as [[bs self2] calls].
    cbn [value after trace fst snd] in *. subst bs calls.
    assert (H1 : same_handles self self1) by apply same_handles_with_tsos.
    unfold ret. cbn [value after trace fst snd map flat_map].
    split; [|split].
    + reflexivity.
    + now rewrite app_nil_r.
    + apply (same_handles_trans H1 Hh).
Qed.

Lemma produce_run (iEvent : Event) (iSetup : EventSetup) (self : L1MuonRecoPropagator) :
  produce iEvent iSetup self
  = for_each (getByLabel iEvent "slimmedMuons") produce_body (fetched iEvent iSetup self).
Proof.
  unfold produce, bind, set_mucand, set_theBField, set_propagatorAlong,
    set_propagatorOpposite, assign, this, fetched.
  cbn [theBField mucand propagatorAlong propagatorOpposite tsos].
  destruct (for_each _ _ _) as [[bs s] calls]. reflexivity.
Qed.

Lemma produce_value (iEvent : Event) (iSetup : EventSetup) (self : L1MuonRecoPropagator) :
  value (produce iEvent iSetup self)
  = map (muon_locals (fetched iEvent iSetup self)) (getByLabel iEvent "slimmedMuons").
Proof. rewrite produce_run. apply for_each_produce_body. Qed.

Lemma produce_trace (iEvent : Event) (iSetup : EventSetup) (self : L1MuonRecoPropagator) :
  trace (produce iEvent iSetup self)
  = flat_map (muon_calls (fetched iEvent iSetup self)) (getByLabel iEvent "slimmedMuons").
Proof. rewrite produce_run. apply for_each_produce_body. Qed.

(** *** Shape of the trace of one iteration *)

Lemma filter_flat_map {A B} (p : B -> bool) (f : A -> list B) (l : list A) :
  filter p (flat_map f l) = flat_map (fun a => filter p (f a)) l.
Proof.
  induction l as [|a l IH]; cbn [flat_map]; [reflexivity|].
  now rewrite filter_app, IH.
Qed.

Lemma position_reads_guarded (n : nat) (t : TrajectoryStateOnSurface) :
  Forall guarded (position_reads n t).
Proof.
  unfold position_reads. destruct (isValid t) eqn:E; [|constructor].
  apply Forall_forall. intros c Hc. apply repeat_spec in Hc. subst c. exact E.
Qed.

Lemma propagate_calls_guarded (self : L1MuonRecoPropagator) (track : TrackRef)
  (target : Surface) :
  Forall guarded (propagate_calls self track target).
Proof.
  unfold propagate_calls. destruct (isValid _); repeat constructor.
Qed.

Lemma filter_position_reads (p : Call -> bool) (n : nat) (t : TrajectoryStateOnSurface) :
  p (CallGlobalPosition t) = false -> filter p (position_reads n t) = [].
Proof.
  intros Hp. unfold position_reads. destruct (isValid t); [|reflexivity].
  induction n as [|n IH]; cbn [repeat filter]; [reflexivity|]. now rewrite Hp.
Qed.

Lemma muon_calls_extrapolations (self : L1MuonRecoPropagator) (imu : Muon) :
  filter is_extrapolation (muon_calls self imu) = three_extrapolations imu.
Proof.
  unfold muon_calls, three_extrapolations, propagate_calls.
  rewrite !filter_app, !filter_position_reads by reflexivity.
  repeat match goal with |- context [isValid ?t] => destruct (isValid t) end; reflexivity.
Qed.

Lemma muon_calls_along (self : L1MuonRecoPropagator) (imu : Muon) :
  filter is_along (muon_calls self imu) = three_targets self imu.
Proof.
  unfold muon_calls, three_targets, propagate_calls.
  rewrite !filter_app, !filter_position_reads by reflexivity.
  repeat match goal with |- context [isValid ?t] => destruct (isValid t) end; reflexivity.
Qed.

Lemma muon_calls_guarded (self : L1MuonRecoPropagator) (imu : Muon) :
  Forall guarded (muon_calls self imu).
Proof.
  unfold muon_calls.
  repeat first [ apply position_reads_guarded | apply propagate_calls_guarded
               | apply Forall_app; split | apply Forall_cons; [exact I|] ].
Qed.

Lemma plane_locals_none (t : TrajectoryStateOnSurface) :
  plane_locals t = None <-> isValid t = false.
Proof. unfold plane_locals. destruct (isValid t); split; congruence. Qed.

Lemma cylinder_locals_none (t : TrajectoryStateOnSurface) :
  cylinder_locals t = None <-> isValid t = false.
Proof. unfold cylinder_locals. destruct (isValid t); split; congruence. Qed.

(** C3.  For every event, setup and object, the extrapolation calls of
    [produce] are, muon after muon in the order of the collection, the plane
    at [z = 790], the plane at [z = -790] and the cylinder of radius [500],
    each on the inner track of the muon, and nothing else; the surfaces handed
    to the "along" propagator are those planes, centred on the beam axis with
    the identity rotation, and that cylinder, centred on the origin. *)
Theorem three_extrapolations_per_track
  (iEvent : Event) (iSetup : EventSetup) (self : L1MuonRecoPropagator) :
  filter is_extrapolation (trace (produce iEvent iSetup self))
  = flat_map three_extrapolations (getByLabel iEvent "slimmedMuons")
  /\ filter is_along (trace (produce iEvent iSetup self))
     = flat_map (three_targets (fetched iEvent iSetup self)) (getByLabel iEvent "slimmedMuons").
Proof.
  rewrite produce_trace, !filter_flat_map. split; apply flat_map_ext; intros imu.
  - apply muon_calls_extrapolations.
  - apply muon_calls_along.
Qed.

(** C7.  Every call of [globalPosition] that [produce] makes, for every
    event, setup and object, is on a trajectory state whose validity flag is
    true. *)
Theorem position_read_only_when_valid
  (iEvent : Event) (iSetup : EventSetup) (self : L1MuonRecoPropagator) :
  Forall guarded (trace (produce iEvent iSetup self)).
Proof.
  rewrite produce_trace. apply Forall_flat_map, Forall_forall.
  intros imu _. apply muon_calls_guarded.
Qed.

(** *** The locals of a valid state *)

Lemma plane_locals_valid (t : TrajectoryStateOnSurface) :
  isValid t = true ->
  plane_locals t
  = Some (mkPlaneLocals (x (globalPosition t)) (y (globalPosition t))
            (sqrt (x (globalPosition t) * x (globalPosition t)
                   + y (globalPosition t) * y (globalPosition t)))
            (x (globalPosition t)
             / sqrt (x (globalPosition t) * x (globalPosition t)
                     + y (globalPosition t) * y (globalPosition t)))).
Proof. intros H. unfold plane_locals. now rewrite H. Qed.

Lemma cylinder_locals_valid (t : TrajectoryStateOnSurface) :
  isValid t = true ->
  cylinder_locals t
  = Some (mkCylinderLocals (x (globalPosition t)) (y (globalPosition t))
            (z (globalPosition t))
            (sqrt (x (globalPosition t) * x (globalPosition t)
                   + y (globalPosition t) * y (globalPosition t)))
            (x (globalPosition t)
             / sqrt (x (globalPosition t) * x (globalPosition t)
                     + y (globalPosition t) * y (globalPosition t)))).
Proof. intros H. unfold cylinder_locals. now rewrite H. Qed.

(** C4, as the code has it.  For every object whose [tsos] is valid, the
    plane branch and the cylinder branch read [x] and [y] from the global
    position of that state, set [rr] to [sqrt (xx*xx + yy*yy)] and [cosphi]
    to [xx / rr], all in binary64; [rr >= 0] holds whenever neither
    coordinate is a NaN. *)
Theorem radius_and_cosphi_of_valid_state (self : L1MuonRecoPropagator) :
  isValid (tsos self) = true ->
  let px := x (globalPosition (tsos self)) in
  let py := y (globalPosition (tsos self)) in
  (exists l, value (me2_block self) = Some l
     /\ xx l = px /\ yy l = py
     /\ rr l = sqrt (px * px + py * py)
     /\ cosphi l = (px / rr l)%float
     /\ (is_nan px = false -> is_nan py = false -> (0 <=? rr l)%float = true))
  /\ (exists l, value (mb2_block self) = Some l
     /\ cyl_xx l = px /\ cyl_yy l = py
     /\ cyl_rr l = sqrt (px * px + py * py)
     /\ cyl_cosphi l = (px / cyl_rr l)%float
     /\ (is_nan px = false -> is_nan py = false -> (0 <=? cyl_rr l)%float = true)).
Proof.
  intros Hv px py. rewrite me2_block_run, mb2_block_run. unfold value; cbn [fst].
  rewrite (plane_locals_valid _ Hv), (cylinder_locals_valid _ Hv).
  split; eexists; (split; [reflexivity|]); cbn [xx yy rr cosphi cyl_xx cyl_yy cyl_rr cyl_cosphi];
    repeat split; apply sqrt_sumsq_nonneg.
Qed.

Lemma radius_and_cosphi_of_valid_state_witness :
  let self := Fixture.holding (mkTSOS true (mkPoint3 3 4 790)) in
  isValid (tsos self) = true
  /\ (exists l, value (me2_block self) = Some l
      /\ xx l = 3%float /\ yy l = 4%float
      /\ rr l = sqrt (3 * 3 + 4 * 4)
      /\ cosphi l = (3 / rr l)%float
      /\ (is_nan 3 = false -> is_nan 4 = false -> (0 <=? rr l)%float = true))
  /\ (exists l, value (mb2_block self) = Some l
      /\ cyl_xx l = 3%float /\ cyl_yy l = 4%float
      /\ cyl_rr l = sqrt (3 * 3 + 4 * 4)
      /\ cyl_cosphi l = (3 / cyl_rr l)%float
      /\ (is_nan 3 = false -> is_nan 4 = false -> (0 <=? cyl_rr l)%float = true)).
Proof.
  split; [reflexivity|].
  apply (radius_and_cosphi_of_valid_state
           (Fixture.holding (mkTSOS true (mkPoint3 3 4 790)))).
  reflexivity.
Defined.

(** C4 as stated fails: a valid state whose [x] is a NaN gives [rr = nan],
    and [nan >= 0] is false. *)
Lemma radius_of_nan_position_not_nonneg :
  let self := Fixture.holding (mkTSOS true (mkPoint3 nan 0 790)) in
  isValid (tsos self) = true
  /\ value (me2_block self) = Some (mkPlaneLocals nan 0 nan nan)
  /\ ~ (forall l, value (me2_block self) = Some l -> (0 <=? rr l)%float = true).
Proof.
  cbv zeta. split; [reflexivity|]. split; [reflexivity|].
  intros H. specialize (H _ eq_refl). discriminate H.
Qed.

(** C10, as the code has it.  For every object whose [tsos] is valid, both
    branches evaluate [xx / rr] with no test on [rr]; the divisor [rr] is
    above zero exactly when [xx*xx + yy*yy], as computed in binary64, is. *)
Theorem cosphi_divisor_of_valid_state (self : L1MuonRecoPropagator) :
  isValid (tsos self) = true ->
  let px := x (globalPosition (tsos self)) in
  let py := y (globalPosition (tsos self)) in
  (exists l, value (me2_block self) = Some l
     /\ cosphi l = (px / rr l)%float
     /\ (0 <? rr l)%float = (0 <? px * px + py * py)%float)
  /\ (exists l, value (mb2_block self) = Some l
     /\ cyl_cosphi l = (px / cyl_rr l)%float
     /\ (0 <? cyl_rr l)%float = (0 <? px * px + py * py)%float).
Proof.
  intros Hv px py. rewrite me2_block_run, mb2_block_run. unfold value; cbn [fst].
  rewrite (plane_locals_valid _ Hv), (cylinder_locals_valid _ Hv).
  split; eexists; (split; [reflexivity|]); cbn [rr cosphi cyl_rr cyl_cosphi];
    (split; [reflexivity | apply sqrt_pos]).
Qed.

Lemma cosphi_divisor_of_valid_state_witness :
  let self := Fixture.holding (mkTSOS true (mkPoint3 3 4 790)) in
  isValid (tsos self) = true
  /\ (exists l, value (me2_block self) = Some l
      /\ cosphi l = (3 / rr l)%float
      /\ (0 <? rr l)%float = (0 <? 3 * 3 + 4 * 4)%float)
  /\ (exists l, value (mb2_block self) = Some l
      /\ cyl_cosphi l = (3 / cyl_rr l)%float
      /\ (0 <? cyl_rr l)%float = (0 <? 3 * 3 + 4 * 4)%float).
Proof.
  split; [reflexivity|].
  apply (cosphi_divisor_of_valid_state
           (Fixture.holding (mkTSOS true (mkPoint3 3 4 790)))).
  reflexivity.
Defined.

(** C10 as stated fails: for the track on the beam axis the extrapolation to
    the plane at [z = 790] is valid with [x = y = 0], the driver sets
    [rr = 0] and still evaluates [xx / rr], which is [0 / 0 = nan]. *)
Lemma cosphi_divides_by_zero_on_axis :
  let out := value (produce (Fixture.event [Fixture.on_axis]) Fixture.setup Fixture.fresh) in
  isValid (extrapolate (fetched (Fixture.event [Fixture.on_axis]) Fixture.setup Fixture.fresh)
             (innerTrack Fixture.on_axis) (planeAt 790)) = true
  /\ map me2_p out = [Some (mkPlaneLocals 0 0 0 nan)]
  /\ ~ (forall m l, In m out -> me2_p m = Some l -> (0 <? rr l)%float = true).
Proof.
  cbv zeta. split; [reflexivity|]. split; [reflexivity|].
  intros H.
  specialize (H (mkMuonLocals (Some (mkPlaneLocals 0 0 0 nan))
                              (Some (mkPlaneLocals 0 0 0 nan)) None)
                (mkPlaneLocals 0 0 0 nan)).
  discriminate H; [left|]; reflexivity.
Qed.

(** C5, as the code has it.  For every object whose [tsos] is not valid,
    the plane branch and the cylinder branch produce no number at all: the
    [else] branches are empty, the position is not read and the object is
    left as it was. *)
Theorem invalid_state_yields_no_number (self : L1MuonRecoPropagator) :
  isValid (tsos self) = false ->
  me2_block self = (None, self, []) /\ mb2_block self = (None, self, []).
Proof.
  intros Hv. rewrite me2_block_run, mb2_block_run.
  unfold plane_locals, cylinder_locals, position_reads. now rewrite Hv.
Qed.

Lemma invalid_state_yields_no_number_witness :
  isValid (tsos Fixture.fresh) = false
  /\ me2_block Fixture.fresh = (None, Fixture.fresh, [])
  /\ mb2_block Fixture.fresh = (None, Fixture.fresh, []).
Proof.
  split; [reflexivity|].
  apply (invalid_state_yields_no_number Fixture.fresh). reflexivity.
Defined.

(** C5 as stated fails: the toy propagators never reach the cylinder, and
    the driver then has no output for that target, neither the sentinel nor
    any other number. *)
Lemma no_sentinel_for_invalid_extrapolation :
  let s := fetched (Fixture.event [Fixture.on_axis]) Fixture.setup Fixture.fresh in
  let out := value (produce (Fixture.event [Fixture.on_axis]) Fixture.setup Fixture.fresh) in
  isValid (extrapolate s (innerTrack Fixture.on_axis) (cylinderAt 500)) = false
  /\ map mb2 out = [None]
  /\ ~ (exists m l, In m out /\ mb2 m = Some l /\ cyl_rr l = sentinel).
Proof.
  cbv zeta. split; [reflexivity|]. split; [reflexivity|].
  intros (m & l & [Hm|[]] & Hl & _). subst m. discriminate Hl.
Qed.

(** C8, as the code has it.  For every event, setup and object, [produce]
    yields one entry per muon of the collection and makes the three
    extrapolation calls of every muon, whatever the validity of any result;
    the locals of each target are those of the state extrapolated to that
    target alone: present when it is valid, absent (no sentinel is stored)
    exactly when it is not. *)
Theorem failed_extrapolation_does_not_abort
  (iEvent : Event) (iSetup : EventSetup) (self : L1MuonRecoPropagator) :
  let muons := getByLabel iEvent "slimmedMuons" in
  let s := fetched iEvent iSetup self in
  let run := produce iEvent iSetup self in
  List.length (value run) = List.length muons
  /\ filter is_extrapolation (trace run) = flat_map three_extrapolations muons
  /\ Forall2 (fun imu l =>
        me2_p l = plane_locals (extrapolate s (innerTrack imu) (planeAt 790))
        /\ me2_n l = plane_locals (extrapolate s (innerTrack imu) (planeAt (-790)))
        /\ mb2 l = cylinder_locals (extrapolate s (innerTrack imu) (cylinderAt 500)))
       muons (value run)
  /\ (forall t, plane_locals t = None <-> isValid t = false)
  /\ (forall t, cylinder_locals t = None <-> isValid t = false).
Proof.
  cbv zeta. rewrite produce_value, produce_trace, filter_flat_map.
  repeat split; try apply plane_locals_none; try apply cylinder_locals_none.
  - apply List.length_map.
  - apply flat_map_ext. intros imu. apply muon_calls_extrapolations.
  - induction (getByLabel iEvent "slimmedMuons") as [|imu l IH]; cbn [map]; constructor; auto.
Qed.

(** C8 as stated fails in its last clause: the track on the beam axis has no
    valid extrapolation to the cylinder; the planes still get their locals,
    the next muon is still processed, but the entry of the cylinder is
    absent, not a sentinel. *)
Lemma failed_target_has_no_sentinel_output :
  let muons := [Fixture.on_axis; Fixture.off_axis] in
  let out := value (produce (Fixture.event muons) Fixture.setup Fixture.fresh) in
  out = [ mkMuonLocals (Some (mkPlaneLocals 0 0 0 nan)) (Some (mkPlaneLocals 0 0 0 nan)) None;
          mkMuonLocals (Some (mkPlaneLocals 3 4 5 0x1.3333333333333p-1))
                       (Some (mkPlaneLocals 3 4 5 0x1.3333333333333p-1)) None ]
  /\ ~ (forall m, In m out -> exists l, mb2 m = Some l /\ cyl_rr l = sentinel).
Proof.
  cbv zeta. split; [reflexivity|].
  intros H. destruct (H _ (or_introl eq_refl)) as (l & Hl & _). discriminate Hl.
Qed.

(** C9.  The evaluation of a muon uses the field, the two propagators and
    the muon, nothing else: on two objects that hold the same handles, the
    entry points return the same state for the same track and target, and
    the loop body yields the same locals and makes the same calls, whatever
    [tsos] the previous iteration left and whatever the collection is; so two
    events that have the same muon, at positions [i] and [j], give the same
    entry for it at [i] and at [j]. *)
Theorem track_evaluation_has_no_cross_track_state
  (ev1 ev2 : Event) (iSetup : EventSetup) (self1 self2 : L1MuonRecoPropagator)
  (i j : nat) (imu : Muon) :
  nth_error (getByLabel ev1 "slimmedMuons") i = Some imu ->
  nth_error (getByLabel ev2 "slimmedMuons") j = Some imu ->
  let s1 := fetched ev1 iSetup self1 in
  let s2 := fetched ev2 iSetup self2 in
  nth_error (value (produce ev1 iSetup self1)) i = Some (muon_locals s1 imu)
  /\ nth_error (value (produce ev2 iSetup self2)) j
     = nth_error (value (produce ev1 iSetup self1)) i
  /\ (forall t1 t2 target,
        value (surfExtrapTrkSam (innerTrack imu) target (with_tsos s1 t1))
        = value (surfExtrapTrkSam (innerTrack imu) target (with_tsos s2 t2))
        /\ value (cylExtrapTrkSam (innerTrack imu) target (with_tsos s1 t1))
           = value (cylExtrapTrkSam (innerTrack imu) target (with_tsos s2 t2)))
  /\ (forall t1 t2,
        value (produce_body imu (with_tsos s1 t1)) = value (produce_body imu (with_tsos s2 t2))
        /\ trace (produce_body imu (with_tsos s1 t1))
           = trace (produce_body imu (with_tsos s2 t2))).
Proof.
  intros H1 H2 s1 s2.
  assert (Hh : forall t1 t2, same_handles (with_tsos s1 t1) (with_tsos s2 t2))
    by (intros; repeat split).
  rewrite !produce_value, !nth_error_map, H1, H2. cbn [option_map].
  fold s1 s2. split; [reflexivity|]. split.
  - f_equal; apply muon_locals_same_handles; exact (Hh (tsos s1) (tsos s2)).
  - split; intros t1 t2.
    + intros target. rewrite !surfExtrapTrkSam_run, !cylExtrapTrkSam_run.
      unfold value; cbn [fst].
      split; apply extrapolate_same_handles, Hh.
    + rewrite !produce_body_run. unfold value, trace; cbn [fst snd].
      split; [apply muon_locals_same_handles | apply muon_calls_same_handles]; apply Hh.
Qed.

Lemma track_evaluation_has_no_cross_track_state_witness :
  let ev1 := Fixture.event [Fixture.on_axis; Fixture.off_axis] in
  let ev2 := Fixture.event [Fixture.off_axis] in
  let self2 := Fixture.holding (mkTSOS true (mkPoint3 nan nan nan)) in
  nth_error (getByLabel ev1 "slimmedMuons") 1 = Some Fixture.off_axis
  /\ nth_error (getByLabel ev2 "slimmedMuons") 0 = Some Fixture.off_axis
  /\ nth_error (value (produce ev2 Fixture.setup self2)) 0
     = nth_error (value (produce ev1 Fixture.setup Fixture.fresh)) 1.
Proof.
  cbv zeta. split; [reflexivity|]. split; [reflexivity|].
  apply (@track_evaluation_has_no_cross_track_state
           (Fixture.event [Fixture.on_axis; Fixture.off_axis])
           (Fixture.event [Fixture.off_axis]) Fixture.setup Fixture.fresh
           (Fixture.holding (mkTSOS true (mkPoint3 nan nan nan)))
           1 0 Fixture.off_axis); reflexivity.
Defined.

(** * Further properties of the driver *)

(** ** The object that [produce] leaves behind *)

Lemma with_tsos_same (s : L1MuonRecoPropagator) : with_tsos s (tsos s) = s.
Proof. now destruct s. Qed.

Lemma last_cons {A} (a d : A) (l : list A) : last (a :: l) d = last l a.
Proof.
  revert a d. induction l as [|b l IH]; intros a d; [reflexivity|].
  change (last (a :: b :: l) d) with (last (b :: l) d).
  now rewrite (IH b d), (IH b a).
Qed.

Lemma for_each_after (l : MuonCollection) : forall self : L1MuonRecoPropagator,
  after (for_each l produce_body self) = with_tsos self (last_tsos self l).
Proof.
  unfold last_tsos.
  induction l as [|imu l IH]; intros self.
  - cbn. symmetry. apply with_tsos_same.
  - cbn [for_each]. unfold bind. rewrite produce_body_run.
    set (self1 := with_tsos self _).
    specialize (IH self1).
    destruct (for_each l produce_body self1) as [[bs self2] calls].
    unfold ret. cbn [after fst snd] in *. subst self2.
    cbn [map]. rewrite last_cons. reflexivity.
Qed.

Lemma produce_after (iEvent : Event) (iSetup : EventSetup) (self : L1MuonRecoPropagator) :
  after (produce iEvent iSetup self)
  = with_tsos (fetched iEvent iSetup self)
      (last_tsos (fetched iEvent iSetup self) (getByLabel iEvent "slimmedMuons")).
Proof. rewrite produce_run. apply for_each_after. Qed.

Lemma last_tsos_nonempty (s1 s2 : L1MuonRecoPropagator) (muons : MuonCollection) :
  same_handles s1 s2 -> muons <> [] -> last_tsos s1 muons = last_tsos s2 muons.
Proof.
  intros Hh Hne. unfold last_tsos. destruct muons as [|imu l]; [congruence|].
  cbn [map]. rewrite !last_cons. f_equal.
  - apply map_ext. intros a. now apply extrapolate_same_handles.
  - now apply extrapolate_same_handles.
Qed.

(** X1.  After [produce], the object holds the collection found under
    "slimmedMuons", the field of the setup and the propagators found under
    "SmartPropagatorAny" and "SmartPropagatorAnyOpposite"; its [tsos] member
    is the cylinder extrapolation of the last muon of the collection, and
    the [tsos] it had before when the collection is empty. *)
Theorem produce_leaves_handles_and_last_state
  (iEvent : Event) (iSetup : EventSetup) (self : L1MuonRecoPropagator) :
  let s := after (produce iEvent iSetup self) in
  let muons := getByLabel iEvent "slimmedMuons" in
  mucand s = muons
  /\ theBField s = idealMagneticFieldRecord iSetup
  /\ propagatorAlong s = trackingComponentsRecord iSetup "SmartPropagatorAny"
  /\ propagatorOpposite s = trackingComponentsRecord iSetup "SmartPropagatorAnyOpposite"
  /\ tsos s = last (map (fun imu => extrapolate s (innerTrack imu) (cylinderAt 500)) muons)
                   (tsos self).
Proof.
  cbv zeta. rewrite produce_after. repeat split.
Qed.

(** X2.  For an event whose collection is empty, [produce] calls no
    propagator, reads no position, yields no entry and leaves the [tsos]
    member as it found it. *)
Theorem produce_on_empty_collection
  (iEvent : Event) (iSetup : EventSetup) (self : L1MuonRecoPropagator) :
  getByLabel iEvent "slimmedMuons" = [] ->
  produce iEvent iSetup self = ([], fetched iEvent iSetup self, [])
  /\ tsos (after (produce iEvent iSetup self)) = tsos self.
Proof.
  intros He. rewrite produce_run, He. split; reflexivity.
Qed.

Lemma produce_on_empty_collection_witness :
  getByLabel (Fixture.event []) "slimmedMuons" = []
  /\ produce (Fixture.event []) Fixture.setup (Fixture.holding (mkTSOS true (mkPoint3 3 4 790)))
     = ([], fetched (Fixture.event []) Fixture.setup
              (Fixture.holding (mkTSOS true (mkPoint3 3 4 790))), [])
  /\ tsos (after (produce (Fixture.event []) Fixture.setup
                    (Fixture.holding (mkTSOS true (mkPoint3 3 4 790)))))
     = mkTSOS true (mkPoint3 3 4 790).
Proof.
  split; [reflexivity|].
  apply (@produce_on_empty_collection (Fixture.event []) Fixture.setup
           (Fixture.holding (mkTSOS true (mkPoint3 3 4 790)))).
  reflexivity.
Defined.

Lemma produce_same_on_objects
  (iEvent : Event) (iSetup : EventSetup) (self1 self2 : L1MuonRecoPropagator) :
  value (produce iEvent iSetup self1) = value (produce iEvent iSetup self2)
  /\ trace (produce iEvent iSetup self1) = trace (produce iEvent iSetup self2)
  /\ (getByLabel iEvent "slimmedMuons" <> [] ->
      after (produce iEvent iSetup self1) = after (produce iEvent iSetup self2)).
Proof.
  assert (Hh : same_handles (fetched iEvent iSetup self1) (fetched iEvent iSetup self2))
    by (repeat split).
  rewrite !produce_value, !produce_trace, !produce_after. split; [|split].
  - apply map_ext. intros imu. now apply muon_locals_same_handles.
  - apply flat_map_ext. intros imu. now apply muon_calls_same_handles.
  - intros Hne. rewrite (last_tsos_nonempty Hh Hne). reflexivity.
Qed.

(** X3.  What [produce] computes and the calls it makes depend on the event
    and the setup only: two objects, whatever a previous event left in
    them, give the same entries and the same trace; they also end as the
    same object, unless the collection is empty (then each keeps its own
    [tsos]). *)
Theorem produce_ignores_the_incoming_object
  (iEvent : Event) (iSetup : EventSetup) (self1 self2 : L1MuonRecoPropagator) :
  value (produce iEvent iSetup self1) = value (produce iEvent iSetup self2)
  /\ trace (produce iEvent iSetup self1) = trace (produce iEvent iSetup self2)
  /\ (getByLabel iEvent "slimmedMuons" <> [] ->
      after (produce iEvent iSetup self1) = after (produce iEvent iSetup self2)).
Proof.
  destruct (produce_same_on_objects iEvent iSetup self1 self2) as (Hv & Ht & Ha).
  split; [exact Hv|]. split; [exact Ht | exact Ha].
Qed.

(** X4.  Running [produce] again on the same event and setup, on the object
    the first run left, gives the same entries, makes the same calls and
    leaves the same object. *)
Theorem produce_again_changes_nothing
  (iEvent : Event) (iSetup : EventSetup) (self : L1MuonRecoPropagator) :
  let first := produce iEvent iSetup self in
  let second := produce iEvent iSetup (after first) in
  value second = value first /\ trace second = trace first /\ after second = after first.
Proof.
  cbv zeta.
  destruct (produce_same_on_objects iEvent iSetup
              (after (produce iEvent iSetup self)) self) as (Hv & Ht & Ha).
  split; [exact Hv|]. split; [exact Ht|].
  destruct (getByLabel iEvent "slimmedMuons") as [|imu l] eqn:E.
  - rewrite !produce_after, E. reflexivity.
  - apply Ha. discriminate.
Qed.

(** X5.  The driver works muon by muon: for a collection that is the
    concatenation of two others, the entries and the trace of [produce] are
    those of the first part followed by those of the second, whatever the
    objects. *)
Theorem produce_on_concatenation
  (ev ev1 ev2 : Event) (iSetup : EventSetup) (self self1 self2 : L1MuonRecoPropagator) :
  getByLabel ev "slimmedMuons"
  = getByLabel ev1 "slimmedMuons" ++ getByLabel ev2 "slimmedMuons" ->
  value (produce ev iSetup self)
  = value (produce ev1 iSetup self1) ++ value (produce ev2 iSetup self2)
  /\ trace (produce ev iSetup self)
     = trace (produce ev1 iSetup self1) ++ trace (produce ev2 iSetup self2).
Proof.
  intros He.
  assert (H1 : same_handles (fetched ev iSetup self) (fetched ev1 iSetup self1))
    by (repeat split).
  assert (H2 : same_handles (fetched ev iSetup self) (fetched ev2 iSetup self2))
    by (repeat split).
  rewrite !produce_value, !produce_trace, He, map_app, flat_map_app. split.
  - f_equal; apply map_ext; intros imu; now apply muon_locals_same_handles.
  - f_equal; apply flat_map_ext; intros imu; now apply muon_calls_same_handles.
Qed.

Lemma produce_on_concatenation_witness :
  let ev := Fixture.event [Fixture.on_axis; Fixture.off_axis] in
  let ev1 := Fixture.event [Fixture.on_axis] in
  let ev2 := Fixture.event [Fixture.off_axis] in
  getByLabel ev "slimmedMuons" = getByLabel ev1 "slimmedMuons" ++ getByLabel ev2 "slimmedMuons"
  /\ value (produce ev Fixture.setup Fixture.fresh)
     = value (produce ev1 Fixture.setup Fixture.fresh)
       ++ value (produce ev2 Fixture.setup Fixture.fresh)
  /\ trace (produce ev Fixture.setup Fixture.fresh)
     = trace (produce ev1 Fixture.setup Fixture.fresh)
       ++ trace (produce ev2 Fixture.setup Fixture.fresh).
Proof.
  cbv zeta. split; [reflexivity|].
  apply (@produce_on_concatenation
           (Fixture.event [Fixture.on_axis; Fixture.off_axis])
           (Fixture.event [Fixture.on_axis]) (Fixture.event [Fixture.off_axis])
           Fixture.setup Fixture.fresh Fixture.fresh Fixture.fresh).
  reflexivity.
Defined.

(** ** How many calls the driver makes *)

Lemma length_flat_map_sum {A B} (f : A -> list B) (l : list A) :
  List.length (flat_map f l) = list_sum (map (fun a => List.length (f a)) l).
Proof.
  induction l as [|a l IH]; [reflexivity|].
  cbn [flat_map map].
  change (list_sum (List.length (f a) :: map (fun a => List.length (f a)) l))
    with (List.length (f a) + list_sum (map (fun a => List.length (f a)) l)).
  now rewrite length_app, IH.
Qed.

Lemma list_sum_le_const {A} (f : A -> nat) (k : nat) (l : list A) :
  (forall a, f a <= k) -> list_sum (map f l) <= k * List.length l.
Proof.
  intros Hf. induction l as [|a l IH]; [simpl; lia|].
  cbn [map List.length]. change (list_sum (f a :: map f l)) with (f a + list_sum (map f l)).
  specialize (Hf a). lia.
Qed.

Lemma list_sum_const {A} (f : A -> nat) (k : nat) (l : list A) :
  (forall a, f a = k) -> list_sum (map f l) = k * List.length l.
Proof.
  intros Hf. induction l as [|a l IH]; [simpl; lia|].
  cbn [map List.length]. change (list_sum (f a :: map f l)) with (f a + list_sum (map f l)).
  specialize (Hf a). lia.
Qed.

Lemma muon_calls_opposite (self : L1MuonRecoPropagator) (imu : Muon) :
  List.length (filter is_opposite (muon_calls self imu)) = failed_along self imu.
Proof.
  unfold muon_calls, failed_along, targets, propagate_calls.
  rewrite !filter_app, !filter_position_reads by reflexivity.
  cbn [filter is_opposite is_along app].
  repeat match goal with |- context [isValid (direct Along ?s ?t ?g)] =>
    destruct (isValid (direct Along s t g)) end; reflexivity.
Qed.

Lemma length_position_reads (n : nat) (t : TrajectoryStateOnSurface) :
  List.length (filter is_read (position_reads n t)) = if isValid t then n else 0.
Proof.
  unfold position_reads. destruct (isValid t); [|reflexivity].
  induction n as [|n IH]; cbn [repeat filter is_read List.length]; [reflexivity|].
  now rewrite IH.
Qed.

Lemma filter_read_propagate_calls (self : L1MuonRecoPropagator) (track : TrackRef)
  (target : Surface) :
  filter is_read (propagate_calls self track target) = [].
Proof. unfold propagate_calls. destruct (isValid _); reflexivity. Qed.

Lemma muon_calls_reads (self : L1MuonRecoPropagator) (imu : Muon) :
  List.length (filter is_read (muon_calls self imu)) = reads_of self imu.
Proof.
  unfold muon_calls, reads_of.
  rewrite !filter_app. cbn [filter is_read].
  rewrite !filter_read_propagate_calls, !length_app, !length_position_reads.
  cbn [List.length]. lia.
Qed.

Lemma failed_along_le (self : L1MuonRecoPropagator) (imu : Muon) :
  failed_along self imu <= 3.
Proof. unfold failed_along. apply (filter_length_le _ targets). Qed.

Lemma reads_of_le (self : L1MuonRecoPropagator) (imu : Muon) :
  reads_of self imu <= 7.
Proof. unfold reads_of. repeat destruct (isValid _); cbn; lia. Qed.

(** X6.  For a collection of [n] muons, [produce] calls the "along"
    propagator exactly [3 n] times; it calls the "opposite" propagator once
    for every (muon, surface) whose "along" propagation is not valid, hence
    at most [3 n] times; it reads a position twice for every valid plane
    result and three times for every valid cylinder result, hence at most
    [7 n] times. *)
Theorem produce_call_counts
  (iEvent : Event) (iSetup : EventSetup) (self : L1MuonRecoPropagator) :
  let muons := getByLabel iEvent "slimmedMuons" in
  let s := fetched iEvent iSetup self in
  let calls := trace (produce iEvent iSetup self) in
  List.length (filter is_along calls) = 3 * List.length muons
  /\ List.length (filter is_opposite calls) = list_sum (map (failed_along s) muons)
  /\ List.length (filter is_opposite calls) <= 3 * List.length muons
  /\ List.length (filter is_read calls) = list_sum (map (reads_of s) muons)
  /\ List.length (filter is_read calls) <= 7 * List.length muons.
Proof.
  cbv zeta. rewrite produce_trace, !filter_flat_map, !length_flat_map_sum.
  rewrite (map_ext _ _ (muon_calls_opposite (fetched iEvent iSetup self))).
  rewrite (map_ext _ _ (muon_calls_reads (fetched iEvent iSetup self))).
  repeat split.
  - apply list_sum_const. intros imu. now rewrite muon_calls_along.
  - apply list_sum_le_const, failed_along_le.
  - apply list_sum_le_const, reads_of_le.
Qed.

(** ** What the driver reads and what it asks the propagators *)

Lemma reads_latest_app (self : L1MuonRecoPropagator) (a b : Trace) :
  forall latest,
    reads_latest self latest (a ++ b)
    <-> reads_latest self latest a /\ reads_latest self (latest_after self latest a) b.
Proof.
  induction a as [|c a IH]; intros latest; cbn [app reads_latest latest_after].
  - tauto.
  - destruct c; rewrite ?IH; tauto.
Qed.

Lemma latest_after_app (self : L1MuonRecoPropagator) (a b : Trace) :
  forall latest,
    latest_after self latest (a ++ b) = latest_after self (latest_after self latest a) b.
Proof.
  induction a as [|c a IH]; intros latest; cbn [app latest_after]; [reflexivity|].
  destruct c; apply IH.
Qed.

Lemma propagate_calls_latest (self : L1MuonRecoPropagator) (track : TrackRef)
  (target : Surface) (latest : option TrajectoryStateOnSurface) :
  reads_latest self latest (propagate_calls self track target)
  /\ latest_after self latest (propagate_calls self track target)
     = Some (extrapolate self track target).
Proof.
  unfold propagate_calls, extrapolate, direct.
  destruct (isValid (propagate (handle Along self) _ _)); cbn; auto.
Qed.

Lemma position_reads_latest (self : L1MuonRecoPropagator) (n : nat)
  (t : TrajectoryStateOnSurface) :
  reads_latest self (Some t) (position_reads n t)
  /\ latest_after self (Some t) (position_reads n t) = Some t.
Proof.
  unfold position_reads. destruct (isValid t); [|cbn; auto].
  induction n as [|n [IH1 IH2]]; cbn; auto.
Qed.

(** One extrapolation followed by the reads of its branch. *)
Lemma extrapolation_reads_latest (self : L1MuonRecoPropagator) (entry : Call)
  (track : TrackRef) (target : Surface) (n : nat) (rest : Trace) :
  is_extrapolation entry = true ->
  (forall latest, reads_latest self latest rest) ->
  forall latest,
    reads_latest self latest
      ((entry :: propagate_calls self track target)
       ++ position_reads n (extrapolate self track target) ++ rest).
Proof.
  intros He Hrest latest.
  assert (H : reads_latest self None
                (propagate_calls self track target
                 ++ position_reads n (extrapolate self track target) ++ rest)).
  { apply reads_latest_app. destruct (propagate_calls_latest self track target None) as [H1 H2].
    split; [exact H1|]. rewrite H2. apply reads_latest_app.
    split; [apply position_reads_latest | apply Hrest]. }
  destruct entry; try discriminate He; exact H.
Qed.

Lemma muon_calls_latest (self : L1MuonRecoPropagator) (imu : Muon) (rest : Trace) :
  (forall latest, reads_latest self latest rest) ->
  forall latest, reads_latest self latest (muon_calls self imu ++ rest).
Proof.
  intros Hrest. unfold muon_calls. rewrite <- !app_assoc.
  repeat (apply extrapolation_reads_latest; [reflexivity|]).
  exact Hrest.
Qed.

(** X7.  [produce] never reads a stale state: every position it reads is
    the position of the state returned by the latest propagator call, and
    that call was made inside the latest extrapolation; nothing is read from
    a state left by a previous muon, a previous event or a default
    construction. *)
Theorem produce_reads_fresh_states_only
  (iEvent : Event) (iSetup : EventSetup) (self : L1MuonRecoPropagator)
  (latest : option TrajectoryStateOnSurface) :
  reads_latest (fetched iEvent iSetup self) latest (trace (produce iEvent iSetup self)).
Proof.
  rewrite produce_trace. revert latest.
  induction (getByLabel iEvent "slimmedMuons") as [|imu l IH]; intros latest.
  - exact I.
  - cbn [flat_map]. apply muon_calls_latest. exact IH.
Qed.

Lemma propagate_calls_about (self : L1MuonRecoPropagator) (muons : MuonCollection)
  (imu : Muon) (target : Surface) :
  In imu muons -> In target targets ->
  Forall (about_collection self muons) (propagate_calls self (innerTrack imu) target).
Proof.
  intros Hi Ht. unfold propagate_calls.
  assert (H : forall h, about_collection self muons
                          (CallPropagate h (start_of self (innerTrack imu)) target))
    by (intros h; split; [exists imu; auto | exact Ht]).
  destruct (isValid _); repeat (apply Forall_cons; [apply H|]); apply Forall_nil.
Qed.

Lemma position_reads_about (self : L1MuonRecoPropagator) (muons : MuonCollection)
  (n : nat) (t : TrajectoryStateOnSurface) :
  Forall (about_collection self muons) (position_reads n t).
Proof.
  apply Forall_forall. intros c Hc. unfold position_reads in Hc.
  destruct (isValid t); [|contradiction]. apply repeat_spec in Hc. now subst c.
Qed.

Lemma muon_calls_about (self : L1MuonRecoPropagator) (muons : MuonCollection) (imu : Muon) :
  In imu muons -> Forall (about_collection self muons) (muon_calls self imu).
Proof.
  intros Hi. unfold muon_calls.
  repeat first [ apply position_reads_about
               | apply propagate_calls_about; [exact Hi | cbn; tauto]
               | apply Forall_app; split | apply Forall_cons; [exact I|] ].
Qed.

(** X8.  Every propagator call of [produce], "along" or "opposite", starts
    from the free state of a muon of the collection (its inner position,
    inner momentum and charge, with the field of the setup) and aims at one
    of the three surfaces of the driver. *)
Theorem produce_asks_about_the_collection_only
  (iEvent : Event) (iSetup : EventSetup) (self : L1MuonRecoPropagator) :
  Forall (about_collection (fetched iEvent iSetup self) (getByLabel iEvent "slimmedMuons"))
         (trace (produce iEvent iSetup self)).
Proof.
  rewrite produce_trace. apply Forall_flat_map, Forall_forall.
  intros imu Hi. now apply muon_calls_about.
Qed.

(** ** Symmetries of the derived numbers *)

Section Symmetry.
Variables prec emax : Z.

Lemma binary_round_aux_negb (s : bool) (m e : Z) (l : location) :
  binary_round_aux prec emax (negb s) m e l = SFopp (binary_round_aux prec emax s m e l).
Proof.
  unfold binary_round_aux.
  destruct (shr_fexp prec emax m e l) as [mrs1 e1].
  destruct (shr_fexp prec emax _ e1 loc_Exact) as [mrs2 e2].
  destruct (shr_m mrs2); [reflexivity| |reflexivity].
  destruct (Z.leb _ _); reflexivity.
Qed.

Lemma xorb_negb_negb (a b : bool) : xorb (negb a) (negb b) = xorb a b.
Proof. now destruct a, b. Qed.

Lemma xorb_negb_left (a b : bool) : xorb (negb a) b = negb (xorb a b).
Proof. now destruct a, b. Qed.

Lemma SFmul_opp_opp (a b : spec_float) :
  SFmul prec emax (SFopp a) (SFopp b) = SFmul prec emax a b.
Proof.
  destruct a as [sa|sa| |sa ma ea], b as [sb|sb| |sb mb eb]; cbn [SFmul SFopp];
    rewrite ?xorb_negb_negb; reflexivity.
Qed.

Lemma SFdiv_opp_l (a b : spec_float) :
  SFdiv prec emax (SFopp a) b = SFopp (SFdiv prec emax a b).
Proof.
  destruct a as [sa|sa| |sa ma ea], b as [sb|sb| |sb mb eb]; cbn [SFdiv SFopp];
    rewrite ?xorb_negb_left; try reflexivity.
  destruct (SFdiv_core_binary prec emax (Zpos ma) ea (Zpos mb) eb) as [[mz ez] lz].
  apply binary_round_aux_negb.
Qed.

Lemma SFadd_comm (a b : spec_float) :
  SFadd prec emax a b = SFadd prec emax b a.
Proof.
  destruct a as [sa|sa| |sa ma ea], b as [sb|sb| |sb mb eb]; cbn [SFadd];
    try reflexivity; try (now destruct sa, sb).
  rewrite (Z.min_comm eb ea). f_equal. apply Z.add_comm.
Qed.
End Symmetry.

Lemma double_mul_opp_opp (a : float) : (- a * - a)%float = (a * a)%float.
Proof.
  apply Prim2SF_inj. rewrite !mul_spec, !opp_spec. apply SFmul_opp_opp.
Qed.

Lemma double_div_opp_l (a b : float) : (- a / b)%float = (- (a / b))%float.
Proof.
  apply Prim2SF_inj. rewrite opp_spec, !div_spec, opp_spec. apply SFdiv_opp_l.
Qed.

Lemma double_add_comm (a b : float) : (a + b)%float = (b + a)%float.
Proof.
  apply Prim2SF_inj. rewrite !add_spec. apply SFadd_comm.
Qed.

(** X9.  In both branches the radius does not change when [x] or [y] of the
    position changes sign, nor when [x] and [y] are exchanged; [cosphi] does
    not change with the sign of [y] and is negated when [x] changes sign.
    The equalities are between binary64 values with all NaNs taken as one
    value, as the primitive floats have it: the two sides have the same bits
    when they are not NaN, and are both NaN otherwise; the sign and the
    payload of a NaN are not part of the statement.  They hold for every
    position, for a valid state (where the locals exist) and for one that is
    not (where they do not). *)
Theorem radius_and_cosphi_symmetries
  (self : L1MuonRecoPropagator) (valid : bool) (p : Point3) :
  let plane q := value (me2_block (with_tsos self (mkTSOS valid q))) in
  let cyl q := value (mb2_block (with_tsos self (mkTSOS valid q))) in
  (option_map rr (plane (flip_x p)) = option_map rr (plane p)
   /\ option_map rr (plane (flip_y p)) = option_map rr (plane p)
   /\ option_map rr (plane (swap_xy p)) = option_map rr (plane p)
   /\ option_map cosphi (plane (flip_y p)) = option_map cosphi (plane p)
   /\ option_map cosphi (plane (flip_x p))
      = option_map (fun l => (- cosphi l)%float) (plane p))
  /\ (option_map cyl_rr (cyl (flip_x p)) = option_map cyl_rr (cyl p)
      /\ option_map cyl_rr (cyl (flip_y p)) = option_map cyl_rr (cyl p)
      /\ option_map cyl_rr (cyl (swap_xy p)) = option_map cyl_rr (cyl p)
      /\ option_map cyl_cosphi (cyl (flip_y p)) = option_map cyl_cosphi (cyl p)
      /\ option_map cyl_cosphi (cyl (flip_x p))
         = option_map (fun l => (- cyl_cosphi l)%float) (cyl p)).
Proof.
  cbv beta zeta. rewrite !me2_block_run, !mb2_block_run. unfold value; cbn [fst].
  rewrite !tsos_with_tsos. unfold plane_locals, cylinder_locals, flip_x, flip_y, swap_xy.
  destruct p as [px py pz]. cbn [isValid globalPosition x y z].
  destruct valid; cbn [option_map rr cosphi cyl_rr cyl_cosphi];
    [|repeat split].
  rewrite !double_mul_opp_opp, (double_add_comm (py * py) (px * px)), double_div_opp_l.
  repeat split.
Qed.

(** ** When [cosphi] is not a number *)

Section Quotient.
Variables prec emax : Z.
Hypothesis prec_pos : (0 < prec)%Z.

Lemma SFeqb_refl (f : spec_float) :
  SFeqb f f = match f with S754_nan => false | _ => true end.
Proof.
  destruct f as [s|s| |s m e]; unfold SFeqb; cbn [SFcompare]; try reflexivity.
  - now destruct s.
  - rewrite Z.compare_refl, Pcompare_refl. now destruct s.
Qed.

Lemma SFeqb_refl_sign (s : bool) (f : spec_float) :
  SF.sign_is s f -> SFeqb f f = true.
Proof. intros H. rewrite SFeqb_refl. destruct f; auto; contradiction. Qed.

Lemma SFdiv_core_binary_nonneg (m1 m2 : positive) (e1 e2 : Z) :
  let '(q, _, _) := SFdiv_core_binary prec emax (Zpos m1) e1 (Zpos m2) e2 in (0 <= q)%Z.
Proof.
  unfold SFdiv_core_binary.
  set (m' := match _ with Z0 => Zpos m1 | Zpos _ => _ | Zneg _ => _ end).
  assert (Hm' : (0 <= m')%Z).
  { subst m'. destruct (_ - _ - _)%Z; try lia. apply Z.shiftl_nonneg. lia. }
  pose proof (Z.div_pos m' (Zpos m2) Hm' ltac:(lia)) as Hq.
  unfold Z.div in Hq. destruct (Z.div_eucl m' (Zpos m2)) as [q r]. exact Hq.
Qed.

Lemma SFdiv_finite_sign (s1 s2 : bool) (m1 m2 : positive) (e1 e2 : Z) :
  SF.sign_is (xorb s1 s2)
    (SFdiv prec emax (S754_finite s1 m1 e1) (S754_finite s2 m2 e2)).
Proof.
  cbn [SFdiv]. pose proof (SFdiv_core_binary_nonneg m1 m2 e1 e2) as H.
  destruct (SFdiv_core_binary prec emax (Zpos m1) e1 (Zpos m2) e2) as [[q e] l].
  now apply SF.binary_round_aux_sign.
Qed.

Lemma SFsqrt_sumsq_infinite (s : bool) (b : spec_float) :
  b <> S754_nan ->
  SFsqrt prec emax
    (SFadd prec emax (SFmul prec emax (S754_infinity s) (S754_infinity s))
                     (SFmul prec emax b b))
  = S754_infinity false.
Proof.
  intros Hb.
  assert (H : SF.sign_is false (SFmul prec emax b b)) by (apply SF.SFmul_self_sign; auto).
  cbn [SFmul]. replace (xorb s s) with false by (now destruct s).
  destruct (SFmul prec emax b b) as [sy|sy| |sy my ey]; cbn in H; subst; try contradiction;
    reflexivity.
Qed.

(** The quotient of a number by the root of a sum of squares it is part of
    is a NaN exactly when the number is infinite, or is a zero over a zero
    root. *)
Lemma SFdiv_sqrt_sumsq_nan (a b : spec_float) :
  a <> S754_nan -> b <> S754_nan ->
  let r := SFsqrt prec emax
             (SFadd prec emax (SFmul prec emax a a) (SFmul prec emax b b)) in
  negb (SFeqb (SFdiv prec emax a r) (SFdiv prec emax a r))
  = SFeqb (SFabs a) (S754_infinity false)
    || SFeqb a (S754_zero false) && SFeqb r (S754_zero false).
Proof.
  intros Ha Hb r.
  assert (Hr : SF.sign_is false r).
  { subst r. apply SF.SFsqrt_sign; auto. apply SF.SFadd_sign; apply SF.SFmul_self_sign; auto. }
  destruct a as [s|s| |s m e]; try congruence.
  - clearbody r. destruct r as [sr|sr| |sr mr er]; cbn in Hr; subst; try contradiction;
      reflexivity.
  - subst r. rewrite (SFsqrt_sumsq_infinite s Hb). reflexivity.
  - clearbody r. destruct r as [sr|sr| |sr mr er]; cbn in Hr; subst; try contradiction;
      try (now destruct s).
    rewrite (@SFeqb_refl_sign _ _ (SFdiv_finite_sign s false m mr e er)). now destruct s.
Qed.
End Quotient.

Lemma Prim2SF_infinity : Prim2SF infinity = S754_infinity false.
Proof. reflexivity. Qed.

Lemma cosphi_nan (px py : float) :
  is_nan px = false -> is_nan py = false ->
  is_nan (px / sqrt (px * px + py * py))
  = is_infinity px || is_zero px && is_zero (sqrt (px * px + py * py)).
Proof.
  intros Hx Hy. unfold is_nan, is_infinity, is_zero.
  rewrite !eqb_spec, abs_spec, div_spec, sqrt_spec, add_spec, !mul_spec, Prim2SF_infinity.
  change (Prim2SF zero) with (S754_zero false).
  apply SFdiv_sqrt_sumsq_nan; auto using binary64_prec_pos, Prim2SF_not_nan.
Qed.

(** X10.  For a valid state whose [x] and [y] are not NaN, [cosphi] is a NaN
    exactly when [x] is infinite, or when [x] is a zero and the radius
    computed is a zero; in every other case the quotient is a number
    (possibly infinite). *)
Theorem cosphi_is_nan_exactly_when (self : L1MuonRecoPropagator) :
  isValid (tsos self) = true ->
  is_nan (x (globalPosition (tsos self))) = false ->
  is_nan (y (globalPosition (tsos self))) = false ->
  (exists l, value (me2_block self) = Some l
     /\ is_nan (cosphi l) = is_infinity (xx l) || is_zero (xx l) && is_zero (rr l))
  /\ (exists l, value (mb2_block self) = Some l
     /\ is_nan (cyl_cosphi l)
        = is_infinity (cyl_xx l) || is_zero (cyl_xx l) && is_zero (cyl_rr l)).
Proof.
  intros Hv Hx Hy. rewrite me2_block_run, mb2_block_run. unfold value; cbn [fst].
  rewrite (plane_locals_valid _ Hv), (cylinder_locals_valid _ Hv).
  split; eexists; (split; [reflexivity|]); cbn [xx rr cosphi cyl_xx cyl_rr cyl_cosphi];
    now apply cosphi_nan.
Qed.

Lemma cosphi_is_nan_exactly_when_witness :
  let self := Fixture.holding (mkTSOS true (mkPoint3 0 0 790)) in
  isValid (tsos self) = true
  /\ is_nan (x (globalPosition (tsos self))) = false
  /\ is_nan (y (globalPosition (tsos self))) = false
  /\ (exists l, value (me2_block self) = Some l
      /\ is_nan (cosphi l) = is_infinity (xx l) || is_zero (xx l) && is_zero (rr l))
  /\ (exists l, value (mb2_block self) = Some l
      /\ is_nan (cyl_cosphi l)
         = is_infinity (cyl_xx l) || is_zero (cyl_xx l) && is_zero (cyl_rr l)).
Proof.
  cbv zeta. split; [reflexivity|]. split; [reflexivity|]. split; [reflexivity|].
  apply (cosphi_is_nan_exactly_when (Fixture.holding (mkTSOS true (mkPoint3 0 0 790))));
    reflexivity.
Defined.

(** * The entry points and exceptions *)

Lemma freeTrajStateMuonE_resolved (track : TrackRef) (self : L1MuonRecoPropagator) :
  freeTrajStateMuonE (Some track) (resolved self)
  = (Returned (start_of self track), resolved self).
Proof. reflexivity. Qed.





